(** * web-stories-wp: dashboard settings reducer, editor karma fixture,
      panel title

    A shallow embedding of

    - [assets/src/dashboard/app/reducer/test/settings.js] (the unit test of
      the settings reducer),
    - [assets/src/edit-story/karma/fixture.js] ([Fixture], [ComponentStub],
      [HookExecutor], [actPromise]),
    - [assets/src/edit-story/components/panels/panel/shared/title.js]
      ([Title.handleHeightChange]).

    JavaScript objects are finite maps from property names to values
    ([gmap string jsval]); the [Map] of component stubs is a [gmap] from
    component identities to arrays of stubs; mutable objects that are shared
    by reference (the stubs) live in a store and are named by their index. *)

From Stdlib Require Import ZArith.
From stdpp Require Import gmap strings list fin_maps sorting.

#[local] Set Warnings "-register-all".

(* ===================================================================== *)
(** ** JavaScript values *)
(* ===================================================================== *)

(** The values that flow through the modelled code.  Numbers that appear
    are integral (timestamps, pixel counts, counters), so [JNum] carries a
    [Z]. *)
Inductive jsval : Type :=
  | JUndefined
  | JNull
  | JBool (b : bool)
  | JNum (n : Z)
  | JStr (s : string)
  | JObj (o : gmap string jsval).

(** [ToBoolean]: what [if (v)], [!v] and [Array.prototype.find] look at. *)
Definition truthy (v : jsval) : bool :=
  match v with
  | JUndefined | JNull => false
  | JBool b => b
  | JNum n => negb (n =? 0)%Z
  | JStr s => negb (String.eqb s "")
  | JObj _ => true
  end.

(** [o.k] on an object: a missing property reads as [undefined]. *)
Definition prop (o : gmap string jsval) (k : string) : jsval :=
  default JUndefined (o !! k).

(** [v?.k]: [undefined] on [null] and [undefined], the property otherwise
    (primitives have no own properties of interest). *)
Definition opt_chain (v : jsval) (k : string) : jsval :=
  match v with
  | JObj o => prop o k
  | _ => JUndefined
  end.

(* ===================================================================== *)
(** ** Dashboard settings reducer *)
(* ===================================================================== *)

Module Settings.

(** An action [{type, payload}]. *)
Record action : Type := Action {
  type : string;
  payload : gmap string jsval;
}.

(** Modelled from the spec: [ACTION_TYPES] is exported by
    [dashboard/app/reducer/settings.js], which is not among the sources;
    the test only names its four keys.  The spec's literal example
    dispatches [type: 'FETCH_SETTINGS_FAILURE'], so every constant is
    taken to be the string of its key. *)
Definition FETCH_SETTINGS_SUCCESS : string := "FETCH_SETTINGS_SUCCESS".
Definition FETCH_SETTINGS_FAILURE : string := "FETCH_SETTINGS_FAILURE".
Definition UPDATE_SETTINGS_SUCCESS : string := "UPDATE_SETTINGS_SUCCESS".
Definition UPDATE_SETTINGS_FAILURE : string := "UPDATE_SETTINGS_FAILURE".

Definition is_failure (t : string) : bool :=
  bool_decide (t = FETCH_SETTINGS_FAILURE)
  || bool_decide (t = UPDATE_SETTINGS_FAILURE).

Definition is_success (t : string) : bool :=
  bool_decide (t = FETCH_SETTINGS_SUCCESS)
  || bool_decide (t = UPDATE_SETTINGS_SUCCESS).

Definition recognized (t : string) : bool := is_failure t || is_success t.

(** The error object a failure leaves in the state:
    [{id: timestamp, message, code}]. *)
Definition error_of (now : Z) (p : gmap string jsval) : jsval :=
  JObj (<["message" := prop p "message"]>
        (<["id" := JNum now]>
        (<["code" := prop p "code"]> ∅))).

(** Modelled from the spec: [settingsReducer] is the default export of
    [dashboard/app/reducer/settings.js], which is not among the sources
    (only its test is).  Following the spec: a pure function
    [(state, action) -> newState]; a failure action normalizes its payload
    [{message, code}] into [{id: timestamp, message, code}] under [error];
    a success action replaces [googleAnalyticsId] by the payload's value
    and does not reset [error]; any other type returns the state as it
    is.  [now] is the value [Date.now()] returns during the call. *)
Definition settingsReducer (now : Z)
    (state : gmap string jsval) (a : action) : gmap string jsval :=
  if is_failure (type a) then
    <["error" := error_of now (payload a)]> state
  else if is_success (type a) then
    <["googleAnalyticsId" := prop (payload a) "googleAnalyticsId"]> state
  else state.

(** [initialState] of the test. *)
Definition initialState : gmap string jsval :=
  <["error" := JObj ∅]> (<["googleAnalyticsId" := JNull]> ∅).

(** [jest.spyOn(Date, 'now').mockImplementation(() => 1592844570916)]. *)
Definition mocked_now : Z := 1592844570916.

(** A failure payload [{message: {body, title}, code}]. *)
Definition failure_payload (body title code : string)
    : gmap string jsval :=
  <["message" := JObj (<["body" := JStr body]>
                       (<["title" := JStr title]> ∅))]>
  (<["code" := JStr code]> ∅).

End Settings.

(* ===================================================================== *)
(** ** Editor karma fixture: stubs, hooks, [act] *)
(* ===================================================================== *)

Module Karma.

(** *** Results of calls that may throw *)

Inductive result (A : Type) : Type :=
  | Ok (a : A)
  | Throw (err : string).
Arguments Ok {A} a.
Arguments Throw {A} err.

#[global] Instance result_bind : MBind result :=
  fun A B (k : A → result B) (r : result A) =>
    match r with
    | Ok a => k a
    | Throw e => Throw e
    end.

(** *** Component identities

    What [React.createElement] receives as [type] and what keys the
    [_componentStubs] map: a host tag, a component of the application, or
    the [Wrapper] that the n-th constructed [ComponentStub] created
    ([forwardRef] returns a fresh object at each construction). *)
Inductive elemType : Type :=
  | Host (tag : string)
  | Comp (name : string)
  | WrapperOf (stub : nat).

#[global] Instance elemType_eq_dec : EqDecision elemType.
Proof. solve_decision. Defined.

#[global] Instance elemType_countable : Countable elemType.
Proof.
  refine (inj_countable'
    (fun t => match t with
              | Host s => inl (inl s)
              | Comp s => inl (inr s)
              | WrapperOf n => inr n
              end)
    (fun c => match c with
              | inl (inl s) => Host s
              | inl (inr s) => Comp s
              | inr n => WrapperOf n
              end) _).
  by intros [].
Defined.

Definition APIProvider : elemType := Comp "APIProvider".
Definition WorkspaceLayout : elemType := Comp "WorkspaceLayout".

(** *** Promises and the hooks that resolve them *)

(** The promises created by [_pushPendingHook], named by their index:
    a cell is [None] while pending and [Some v] once resolved with [v].
    [settled] lists the promises in the order in which they were
    resolved.  [calls] is a ghost trace: one entry (the hook's promise)
    for every invocation of a queued hook. *)
Record heap : Type := Heap {
  cells : list (option jsval);
  settled : list nat;
  calls : list nat;
}.

Definition empty_heap : heap := Heap [] [] [].

(** [new Promise((resolve) => { resolver = resolve; })] *)
Definition new_promise (hp : heap) : heap * nat :=
  (Heap (cells hp ++ [None]) (settled hp) (calls hp), length (cells hp)).

(** [resolver(result)]: the first call settles the promise, any later
    call is ignored. *)
Definition resolver (p : nat) (v : jsval) (hp : heap) : heap :=
  match cells hp !! p with
  | Some None => Heap (<[p := Some v]> (cells hp)) (settled hp ++ [p])
                      (calls hp)
  | _ => hp
  end.

(** What a hook reads when it runs: the render scope of the wrapper. *)
Definition scope : Type := jsval.

(** The closure [() => { const result = func(); resolver(result); }]
    pushed to [pendingHooks].  The procedure [func] is taken to return:
    a hook that throws, which in the source throws out of the render
    that calls it, is outside the model. *)
Record PendingHook : Type := {
  hook_func : scope → jsval;
  hook_promise : nat;
}.

Definition run_pending (sc : scope) (h : PendingHook) (hp : heap) : heap :=
  let result := hook_func h sc in
  resolver (hook_promise h) result
    (Heap (cells hp) (settled hp) (calls hp ++ [hook_promise h])).

(** [function HookExecutor({ hooks, children })]:
    [hooks.forEach((func) => func())]. *)
Definition HookExecutor (sc : scope) (hooks : list PendingHook)
    (hp : heap) : heap :=
  foldl (fun hp h => run_pending sc h hp) hp hooks.

(** *** Component stubs *)

(** What [Impl] is in a render: the mocked implementation or the
    original component. *)
Inductive implChoice : Type :=
  | MockImpl (implementation : string)
  | Original (Component : elemType).

(** React's state for the mounted [Wrapper]:
    - [refresher]: the value [useState(0)] returned in the last render,
      which is also the dependency both [useMemo] results were computed
      for;
    - [bumps]: the number of [(v) => v + 1] updates queued since;
    - [hooks], [Impl]: the memoised results. *)
Record fiber : Type := Fiber {
  refresher : nat;
  bumps : nat;
  hooks : list PendingHook;
  Impl : implChoice;
}.

(** A [ComponentStub] with the variables its closures capture.
    [mounted] is the wrapper's React state once it has rendered (one
    mounted instance of the wrapper is modelled); the variable
    [setRefresher] holds that state's setter from the first render on and
    is [undefined] before. *)
Record ComponentStub : Type := Stub {
  Component : elemType;
  _matcher : option (jsval → jsval);
  _implementation : option string;
  _props : jsval;
  pendingHooks : list PendingHook;
  mounted : option fiber;
  _wrapper : elemType;
}.

(** [new ComponentStub(fixture, Component, matcher)], the [id]-th stub
    constructed. *)
Definition new_ComponentStub (id : nat) (Component : elemType)
    (matcher : option (jsval → jsval)) : ComponentStub :=
  Stub Component matcher None JNull [] None (WrapperOf id).

Definition setRefresher (st : ComponentStub) : option fiber := mounted st.

(** [setRefresher((v) => v + 1)]: calling [undefined] throws. *)
Definition call_setRefresher (st : ComponentStub) : result ComponentStub :=
  match setRefresher st with
  | Some f =>
      Ok (Stub (Component st) (_matcher st) (_implementation st)
            (_props st) (pendingHooks st)
            (Some (Fiber (refresher f) (S (bumps f)) (hooks f) (Impl f)))
            (_wrapper st))
  | None => Throw "TypeError: setRefresher is not a function"
  end.

(** [this._refresh = () => { act(() => { if (setRefresher) {
      setRefresher((v) => v + 1); } }); }].
    The [act] around the setter is not part of this function's model: it
    is the stub as [renderHook] drives it, inside the [act] of
    [fixture.act], where the inner [act] renders nothing and the update
    stays queued until the outer one ends.  The render that the update
    asks for is the event [Render] ([Wrapper] below); outside an
    enclosing [act] on a mounted stub it follows the refresh at once,
    before the caller gets control back. *)
Definition _refresh (st : ComponentStub) : result ComponentStub :=
  if bool_decide (is_Some (setRefresher st))
  then call_setRefresher st
  else Ok st.

(** [this._pushPendingHook = (func) => { ... }] *)
Definition _pushPendingHook (func : scope → jsval)
    (sh : ComponentStub * heap) : result (ComponentStub * heap * nat) :=
  let '(st, hp) := sh in
  let '(hp, promise) := new_promise hp in
  let st := Stub (Component st) (_matcher st) (_implementation st)
              (_props st)
              (pendingHooks st ++ [Build_PendingHook func promise])
              (mounted st) (_wrapper st) in
  st ← _refresh st;
  Ok (st, hp, promise).

(** [mockImplementation(implementation)] *)
Definition mockImplementation (implementation : string)
    (st : ComponentStub) : result ComponentStub :=
  let st := Stub (Component st) (_matcher st) (Some implementation)
              (_props st) (pendingHooks st) (mounted st) (_wrapper st) in
  _refresh st.

(** [callFake(implementation)] *)
Definition callFake (implementation : string) (st : ComponentStub)
    : result ComponentStub :=
  mockImplementation implementation st.

(** What [useMemo(() => this._implementation ? MockImpl : Component)]
    computes. *)
Definition choose_Impl (st : ComponentStub) : implChoice :=
  match _implementation st with
  | Some implementation => MockImpl implementation
  | None => Original (Component st)
  end.

(** One render of [Wrapper = forwardRef((props, ref) => ...)] followed by
    the render of the [HookExecutor] it returns.  [useState] yields the
    committed [refresher] plus the queued updates (0 on the first
    render); each [useMemo(..., [refresher])] recomputes on the first
    render and whenever [refresher] differs from the previous render's.
    The result carries the [Impl] the wrapper renders and the props it
    passes to it, [{_wrapped: true, ...props}]. *)
Definition Wrapper (props : jsval) (sc : scope)
    (sh : ComponentStub * heap)
    : ComponentStub * heap * (implChoice * jsval) :=
  let '(st, hp) := sh in
  let refresher' :=
    match mounted st with
    | Some f => (refresher f + bumps f)%nat
    | None => 0%nat
    end in
  let recompute :=
    match mounted st with
    | Some f => negb (refresher' =? refresher f)%nat
    | None => true
    end in
  let hooksToExecute :=
    if recompute then pendingHooks st
    else from_option hooks [] (mounted st) in
  let pendingHooks' := if recompute then [] else pendingHooks st in
  let Impl' :=
    if recompute then choose_Impl st
    else from_option Impl (choose_Impl st) (mounted st) in
  let hp := HookExecutor sc hooksToExecute hp in
  let child_props :=
    match props with
    | JObj o => JObj (o ∪ {["_wrapped" := JBool true]})
    | _ => JObj {["_wrapped" := JBool true]}
    end in
  (Stub (Component st) (_matcher st) (_implementation st) props
     pendingHooks'
     (Some (Fiber refresher' 0 hooksToExecute Impl'))
     (_wrapper st),
   hp, (Impl', child_props)).

(** *** The fixture *)

(** The [Fixture] object, as far as stubs and flags go ([_config],
    [_events] and [_container] play no part here).  [stubStore] holds the
    stub objects; the arrays in [_componentStubs] and [_layoutStub] refer
    to them by index. *)
Record Fixture : Type := {
  _flags : gmap string jsval;
  _componentStubs : gmap elemType (list nat);
  stubStore : list ComponentStub;
  _layoutStub : nat;
}.

(** [stubComponent(component, matcher)]: returns the fixture and the new
    stub. *)
Definition stubComponent (component : elemType)
    (matcher : option (jsval → jsval)) (fx : Fixture) : Fixture * nat :=
  let id := length (stubStore fx) in
  let stub := new_ComponentStub id component matcher in
  let stubs := default [] (_componentStubs fx !! component) in
  ({| _flags := _flags fx;
      _componentStubs := <[component := stubs ++ [id]]> (_componentStubs fx);
      stubStore := stubStore fx ++ [stub];
      _layoutStub := _layoutStub fx |}, id).

(** [setFlags(flags) { this._flags = { ...flags }; }] *)
Definition setFlags (flags : gmap string jsval) (fx : Fixture) : Fixture :=
  {| _flags := flags;
     _componentStubs := _componentStubs fx;
     stubStore := stubStore fx;
     _layoutStub := _layoutStub fx |}.

(** A method call on a stub held in the store. *)
Definition on_stub (id : nat)
    (f : ComponentStub → result ComponentStub) (fx : Fixture)
    : result Fixture :=
  match stubStore fx !! id with
  | Some st =>
      st ← f st;
      Ok {| _flags := _flags fx;
            _componentStubs := _componentStubs fx;
            stubStore := <[id := st]> (stubStore fx);
            _layoutStub := _layoutStub fx |}
  | None => Throw "TypeError: not a stub"
  end.

(** [constructor()]: no flags, no stubs, then
    [this.stubComponent(APIProvider).callFake(...)] and
    [this._layoutStub = this.stubComponent(WorkspaceLayout)]. *)
Definition new_Fixture : result Fixture :=
  let fx := {| _flags := ∅; _componentStubs := ∅; stubStore := [];
               _layoutStub := 0 |} in
  let '(fx, api) := stubComponent APIProvider None fx in
  fx ← on_stub api (callFake "Fixture(APIProvider)") fx;
  let '(fx, layout) := stubComponent WorkspaceLayout None fx in
  Ok {| _flags := _flags fx;
        _componentStubs := _componentStubs fx;
        stubStore := stubStore fx;
        _layoutStub := layout |}.

(** The callback handed to [stubs.find]. *)
Definition stub_matches (fx : Fixture) (props : jsval) (id : nat) : bool :=
  match stubStore fx !! id with
  | Some stub =>
      match _matcher stub with
      | None => true
      | Some matcher => truthy (matcher props)
      end
  | None => false
  end.

(** The fake installed by [spyOn(React, 'createElement').and.callFake]:
    the type the original [createElement] is called with (props and
    children are passed on as they are). *)
Definition createElement (fx : Fixture) (type : elemType) (props : jsval)
    : elemType :=
  if negb (truthy (opt_chain props "_wrapped")) then
    match _componentStubs fx !! type with
    | Some stubs =>
        match List.find (stub_matches fx props) stubs with
        | Some match_ =>
            match stubStore fx !! match_ with
            | Some stub => _wrapper stub
            | None => type
            end
        | None => type
        end
    | None => type
    end
  else type.

(** *** [act] *)

(** React's work for the rendered tree: the state updates it has
    applied and those queued but not rendered yet. *)
Record scheduler : Type := Scheduler {
  applied : list string;
  queued : list string;
}.

Definition flushWork (w : scheduler) : scheduler :=
  Scheduler (applied w ++ queued w) [].

(** How a promise settles. *)
Inductive settlement : Type :=
  | Fulfilled (v : jsval)
  | Rejected (reason : jsval).

(** What a callback returns: a plain value, or a promise, given by the
    asynchronous work (state updates included) that runs before it
    settles and by how it settles. *)
Inductive returned : Type :=
  | Value (v : jsval)
  | Promise (work : scheduler → scheduler) (outcome : settlement).

(** A callback runs against the scheduler (it may queue updates) and
    returns or throws. *)
Inductive completion : Type :=
  | Return (r : returned)
  | Raise (e : jsval).

Definition callback : Type := scheduler → scheduler * completion.

(** [Promise.resolve(r)]: a promise as it is, a plain value as a promise
    fulfilled with it. *)
Definition Promise_resolve (r : returned) : returned :=
  match r with
  | Value v => Promise (fun w => w) (Fulfilled v)
  | Promise _ _ => r
  end.

(** Waiting for [r] to settle: the pending work of a promise runs; a
    plain value is there at once. *)
Definition await (r : returned) (w : scheduler) : scheduler * settlement :=
  match r with
  | Value v => (w, Fulfilled v)
  | Promise work outcome => (work w, outcome)
  end.

(** What a promise resolved with [r] settles to once [r] has settled. *)
Definition adopt (r : returned) : settlement :=
  match r with
  | Value v => Fulfilled v
  | Promise _ outcome => outcome
  end.

(** The type of a scheduling boundary such as [act]: given the body, it
    yields what the caller sees when the boundary's thenable has settled
    (or that the call threw), together with the variables the body
    assigned ([vars]). *)
Definition boundary : Type :=
  ∀ V : Type,
    (scheduler → scheduler * V * (returned + jsval)) →
    scheduler → scheduler * V * (settlement + jsval).

(** Modelled from the library: [act] of [@testing-library/react] is not
    code of this repository.  It runs the body, waits for what the body
    returned, and, when that fulfilled, flushes the queued work before
    its own thenable fulfils with [undefined]; a rejection is passed on,
    and a body that throws makes [act] throw, the updates queued up to
    the failure being rendered all the same.  The library promises the
    waiting only for a body that returns a thenable; that a plain value
    is handled alike is this model's choice, and nothing proved about
    [actPromise] for an arbitrary boundary relies on it. *)
Definition act {V : Type}
    (body : scheduler → scheduler * V * (returned + jsval))
    (w : scheduler) : scheduler * V * (settlement + jsval) :=
  match body w with
  | (w, vars, inl result) =>
      match await result w with
      | (w, Fulfilled _) => (flushWork w, vars, inl (Fulfilled JUndefined))
      | (w, Rejected e) => (flushWork w, vars, inl (Rejected e))
      end
  | (w, vars, inr e) => (flushWork w, vars, inr e)
  end.

(** The body [actPromise] hands to the boundary:
    [() => { callbackResult = callback();
             return Promise.resolve(callbackResult); }]. *)
Definition actPromise_body (callback : callback) (w : scheduler)
    : scheduler * option returned * (returned + jsval) :=
  match callback w with
  | (w, Return callbackResult) =>
      (w, Some callbackResult, inl (Promise_resolve callbackResult))
  | (w, Raise e) => (w, None, inr e)
  end.

(** [function actPromise(callback)] over the scheduling boundary it
    calls: the scheduler when the returned promise has settled, and how
    it settled.  An executor that throws rejects the promise under
    construction. *)
Definition actPromise_with (act : boundary) (callback : callback)
    (w : scheduler) : scheduler * settlement :=
  match act _ (actPromise_body callback) w with
  | (w, callbackResult, inl actResult) =>
      match actResult with
      | Fulfilled _ =>
          (w, match callbackResult with
              | Some callbackResult => adopt callbackResult
              | None => Fulfilled JUndefined
              end)
      | Rejected e => (w, Rejected e)
      end
  | (w, _, inr e) => (w, Rejected e)
  end.

(** [actPromise] with the library's [act]. *)
Definition actPromise (callback : callback) (w : scheduler)
    : scheduler * settlement :=
  actPromise_with (@act) callback w.

(** What the library promises of [act] for a body that returns a
    thenable which fulfils: the thenable of [act] fulfils once the work
    behind the body's thenable has run and the queued work has been
    flushed.  Nothing is promised here for a body that returns a plain
    value. *)
Definition flushes_after_thenable (act : boundary) : Prop :=
  ∀ (V : Type) (body : scheduler → scheduler * V * (returned + jsval))
    (w w1 : scheduler) (vars : V) work x,
    body w = (w1, vars, inl (Promise work (Fulfilled x))) →
    act V body w = (flushWork (work w1), vars, inl (Fulfilled JUndefined)).

(** *** Driving a stub *)

(** What can happen to a stub between two looks at it: the wrapper
    renders (its parent rendered, or a queued refresh is flushed), a hook
    is queued, or the implementation is replaced. *)
Inductive event : Type :=
  | Render (props : jsval) (sc : scope)
  | PushPendingHook (func : scope → jsval)
  | MockImplementation (implementation : string).

Definition step (e : event) (sh : ComponentStub * heap)
    : result (ComponentStub * heap) :=
  match e with
  | Render props sc => Ok (Wrapper props sc sh).1
  | PushPendingHook func =>
      '(st, hp, _) ← _pushPendingHook func sh; Ok (st, hp)
  | MockImplementation implementation =>
      st ← mockImplementation implementation sh.1; Ok (st, sh.2)
  end.

Fixpoint run (es : list event) (sh : ComponentStub * heap)
    : result (ComponentStub * heap) :=
  match es with
  | [] => Ok sh
  | e :: es => sh ← step e sh; run es sh
  end.

(** The wrapper rendering again and again (its parent renders, say),
    with nothing pushed or refreshed in between. *)
Fixpoint renders (later : list (jsval * scope)) (sh : ComponentStub * heap)
    : ComponentStub * heap :=
  match later with
  | [] => sh
  | r :: later => renders later (Wrapper r.1 r.2 sh).1
  end.

(** Queueing the hooks [fs] one after the other, with no render in
    between; returns their promises. *)
Fixpoint push_all (fs : list (scope → jsval)) (sh : ComponentStub * heap)
    : result (ComponentStub * heap * list nat) :=
  match fs with
  | [] => Ok (sh, [])
  | func :: fs =>
      '(st, hp, p) ← _pushPendingHook func sh;
      '(sh, ps) ← push_all fs (st, hp);
      Ok (sh, p :: ps)
  end.

(** The closures [push_all] queues when the first promise is [p]. *)
Fixpoint closures (p : nat) (fs : list (scope → jsval))
    : list PendingHook :=
  match fs with
  | [] => []
  | func :: fs => Build_PendingHook func p :: closures (S p) fs
  end.

(** The wrapper's state after [n] more refreshes were queued. *)
Definition bumped (n : nat) (m : option fiber) : option fiber :=
  match m with
  | Some f => Some (Fiber (refresher f) (n + bumps f) (hooks f) (Impl f))
  | None => None
  end.

(** *** Registration history *)

(** A rule as it is registered: the identity and the optional matcher. *)
Definition rule : Type := elemType * option (jsval → jsval).

(** The two rules the constructor registers. *)
Definition constructor_rules : list rule :=
  [(APIProvider, None); (WorkspaceLayout, None)].

(** [fixture.stubComponent] called for each rule in turn. *)
Definition register_all (rules : list rule) (fx : Fixture) : Fixture :=
  foldl (fun fx r => (stubComponent r.1 r.2 fx).1) fx rules.

(** The lookup in the spec's words: "scan registered rules for that
    identity in registration order; return the first whose predicate is
    absent or returns true for P; if none match, construction proceeds
    unmodified".  The [i]-th registered rule replaces by the [i]-th
    wrapper. *)
Definition rule_applies (type : elemType) (props : jsval) (r : rule)
    : bool :=
  bool_decide (r.1 = type)
  && match r.2 with
     | None => true
     | Some predicate => truthy (predicate props)
     end.

Fixpoint first_rule (i : nat) (rules : list rule) (type : elemType)
    (props : jsval) : option nat :=
  match rules with
  | [] => None
  | r :: rules =>
      if rule_applies type props r then Some i
      else first_rule (S i) rules type props
  end.

Definition spec_lookup (rules : list rule) (type : elemType)
    (props : jsval) : elemType :=
  match first_rule 0 rules type props with
  | Some i => WrapperOf i
  | None => type
  end.

(** The positions, counted from [i], of the rules registered for
    [type]. *)
Fixpoint ids_from (i : nat) (rules : list rule) (type : elemType)
    : list nat :=
  match rules with
  | [] => []
  | r :: rules =>
      if bool_decide (r.1 = type) then i :: ids_from (S i) rules type
      else ids_from (S i) rules type
  end.

(** A fixture as a test sets it up: [new Fixture()] followed by a
    [stubComponent] call for each rule. *)
Definition fixture_with (rules : list rule) : result Fixture :=
  fx ← new_Fixture; Ok (register_all rules fx).

(** The fixture keeps what was registered: the [i]-th stub in the store
    carries the [i]-th rule's matcher and its own wrapper, and the array
    kept for an identity lists the rules registered for it, in order. *)
Definition keeps (fx : Fixture) (rules : list rule) : Prop :=
  (∀ (i : nat) (r : rule),
     rules !! i = Some r →
     ∃ stub, stubStore fx !! i = Some stub
             ∧ _matcher stub = r.2 ∧ _wrapper stub = WrapperOf i)
  ∧ length (stubStore fx) = length rules
  ∧ ∀ type, default [] (_componentStubs fx !! type) = ids_from 0 rules type.

(** *** Observing a stub over a sequence of events *)

(** [get props() { return this._props; }] *)
Definition props (st : ComponentStub) : jsval := _props st.

(** The props of the last render among [es]; [d] when nothing rendered. *)
Fixpoint last_props (es : list event) (d : jsval) : jsval :=
  match es with
  | [] => d
  | Render props _ :: es => last_props es props
  | _ :: es => last_props es d
  end.

Definition is_render (e : event) : bool :=
  match e with
  | Render _ _ => true
  | _ => false
  end.

Definition is_push (e : event) : bool :=
  match e with
  | PushPendingHook _ => true
  | _ => false
  end.

(** The promises of a list of queued closures. *)
Definition promises_of (hs : list PendingHook) : list nat :=
  map hook_promise hs.

(** What holds of a stub and the promises it created, from its
    construction on:
    - a mounted wrapper with hooks in the queue has a refresh queued;
    - a promise that is not resolved belongs to a hook in the queue;
    - the promises of the hooks in the queue are pending;
    - the promises resolved so far, followed by those of the queue, are in
      increasing order (the order of their creation);
    - resolved promises were created;
    - the hooks the wrapper memoised have resolved promises. *)
Definition consistent (sh : ComponentStub * heap) : Prop :=
  let '(st, hp) := sh in
  match mounted st with
  | Some f => pendingHooks st = [] ∨ (0 < bumps f)%nat
  | None => True
  end
  ∧ (∀ p : nat, (p < length (cells hp))%nat →
       (∃ v, cells hp !! p = Some (Some v))
       ∨ p ∈ promises_of (pendingHooks st))
  ∧ (∀ h, h ∈ pendingHooks st → cells hp !! hook_promise h = Some None)
  ∧ StronglySorted lt (settled hp ++ promises_of (pendingHooks st))
  ∧ (∀ p : nat, p ∈ settled hp → (p < length (cells hp))%nat)
  ∧ ∀ f h, mounted st = Some f → h ∈ hooks f →
      ∃ v, cells hp !! hook_promise h = Some (Some v).

(** *** The API provider of the fixture *)

(** [function asyncResponse(value) { return Promise.resolve(value); }] *)
Definition asyncResponse (value : jsval) : returned :=
  Promise_resolve (Value value).

(** The array [getAllFonts] hands to [asyncResponse]:
    [[TEXT_ELEMENT_DEFAULT_FONT].map((font) =>
       ({ name: font.family, value: font.family, ...font }))].
    The default font is defined in [app/font/defaultFonts], which is not
    among the sources, and enters as a parameter. *)
Definition getAllFonts_fonts (TEXT_ELEMENT_DEFAULT_FONT : gmap string jsval)
    : list (gmap string jsval) :=
  map (fun font =>
         font ∪ (<["name" := prop font "family"]>
                 (<["value" := prop font "family"]> ∅)))
      [TEXT_ELEMENT_DEFAULT_FONT].

End Karma.

(* ===================================================================== *)
(** ** Panel title *)
(* ===================================================================== *)

Module Panel.

(** The part of the panel context's state that [Title] reads and
    writes.  Heights are pixel counts. *)
Record panel : Type := {
  height : Z;
  resizeable : bool;
}.

(** [setHeight] of the panel context ([panel.js], not among the sources),
    taken to be a React state setter: called with an updater function, as
    [handleHeightChange] calls it, it applies the updater to the current
    height. *)
Definition setHeight (updater : Z → Z) (p : panel) : panel :=
  {| height := updater (height p); resizeable := resizeable p |}.

Section title.

(** [Math.round(x * 0.7)] is computed on doubles, which are not
    modelled: the function enters as a parameter. *)
Variable Math_round_70_percent : Z → Z.

(** [const maxHeight = Math.round(inspectorContentHeight * 0.7);] *)
Definition maxHeight (inspectorContentHeight : Z) : Z :=
  Math_round_70_percent inspectorContentHeight.

(** [handleHeightChange = (deltaHeight) => resizeable
      ? setHeight((value) =>
          Math.max(0, Math.min(maxHeight, value + deltaHeight)))
      : null] *)
Definition handleHeightChange (inspectorContentHeight deltaHeight : Z)
    (p : panel) : panel :=
  if resizeable p then
    setHeight
      (fun value =>
         Z.max 0 (Z.min (maxHeight inspectorContentHeight)
                        (value + deltaHeight)))
      p
  else p.

End title.

(** Rounding seven tenths of an integer to the nearest integer, halves
    up: what [Math.round(x * 0.7)] is in exact arithmetic. *)
Definition exact_round_70_percent (x : Z) : Z := (7 * x + 5) / 10.

(** *** The header and its handlers *)

(** [handleExpandToHeightChange]: [if (resizeable && height >=
    PANEL_COLLAPSED_THRESHOLD) { setExpandToHeight(height); }], as the
    new value of the context's [expandToHeight].  The threshold is
    exported by [panel.js], which is not among the sources, and enters as
    a parameter; [setExpandToHeight] is taken to store its argument. *)
Definition handleExpandToHeightChange (PANEL_COLLAPSED_THRESHOLD : Z)
    (p : panel) (expandToHeight : Z) : Z :=
  if resizeable p && (PANEL_COLLAPSED_THRESHOLD <=? height p)%Z
  then height p
  else expandToHeight.

(** The colours of the theme the header reads. *)
Record theme : Type := {
  bg_black : string;
  fg_white : string;
  fg_gray16 : string;
}.

Section header.

(** [rgba] of [polished], a library: the CSS colour for a colour and an
    opacity (given as its literal). *)
Variable rgba : string → string → string.

(** [function getBackgroundColor(isPrimary, isSecondary, theme)] *)
Definition getBackgroundColor (isPrimary isSecondary : bool) (t : theme)
    : string :=
  if isPrimary then rgba (bg_black t) "0.07"
  else if isSecondary then rgba (fg_white t) "0.07"
  else "transparent".

(** [border-top-width: ${({ isPrimary, isSecondary }) =>
      isPrimary || isSecondary ? 0 : '1px'}] *)
Definition border_top_width (isPrimary isSecondary : bool) : jsval :=
  if isPrimary || isSecondary then JNum 0 else JStr "1px".

End header.



(** [const titleLabel = isCollapsed ? __('Expand panel', ...) :
    __('Collapse panel', ...)], untranslated. *)
Definition titleLabel (isCollapsed : bool) : string :=
  if isCollapsed then "Expand panel" else "Collapse panel".

(** The props of [Title] that decide what is rendered. *)
Record titleProps : Type := {
  isPrimary : bool;
  isSecondary : bool;
  isResizable : bool;
  canCollapse : bool;
}.

(** [Title.defaultProps] *)
Definition defaultProps : titleProps :=
  {| isPrimary := false; isSecondary := false; isResizable := false;
     canCollapse := true |}.








End Panel.

(* ===================================================================== *)
(** * Properties *)
(* ===================================================================== *)

(** ** Settings reducer *)

Section settings_facts.
Import Settings.
Implicit Types (s : gmap string jsval) (a : action) (now : Z).

Lemma failure_not_success t : is_failure t = true → is_success t = false.
Proof.
  unfold is_failure, is_success. intros H.
  apply orb_true_iff in H as [H|H]; apply bool_decide_eq_true in H;
    subst t; reflexivity.
Qed.

Lemma reducer_failure now s a :
  is_failure (type a) = true →
  settingsReducer now s a = <["error" := error_of now (payload a)]> s.
Proof. intros H. unfold settingsReducer. by rewrite H. Qed.

Lemma reducer_success now s a :
  is_success (type a) = true →
  settingsReducer now s a
  = <["googleAnalyticsId" := prop (payload a) "googleAnalyticsId"]> s.
Proof.
  intros H. unfold settingsReducer.
  destruct (is_failure (type a)) eqn:Hf.
  - apply failure_not_success in Hf. congruence.
  - by rewrite H.
Qed.

(** The expectations of [test/settings.js], read on the modelled
    reducer: the fields each test names have the values it expects. *)
Example test_FETCH_SETTINGS_SUCCESS :
  let result := settingsReducer mocked_now initialState
                  (Action FETCH_SETTINGS_SUCCESS
                     (<["googleAnalyticsId" := JStr "fakeId12345"]> ∅)) in
  result !! "error" = Some (JObj ∅)
  ∧ result !! "googleAnalyticsId" = Some (JStr "fakeId12345").
Proof.
  intros result. subst result. rewrite reducer_success by reflexivity.
  cbn [payload]. rewrite lookup_insert_ne by done.
  by rewrite lookup_insert_eq.
Qed.

Example test_FETCH_SETTINGS_FAILURE :
  let result := settingsReducer mocked_now initialState
                  (Action FETCH_SETTINGS_FAILURE
                     (failure_payload
                        "The response is not a valid JSON response."
                        "Unable to find settings data" "my_error_code")) in
  result !! "googleAnalyticsId" = Some JNull
  ∧ result !! "error"
    = Some (JObj
        (<["message" :=
             JObj (<["body" :=
                       JStr "The response is not a valid JSON response."]>
                   (<["title" := JStr "Unable to find settings data"]> ∅))]>
         (<["id" := JNum mocked_now]>
         (<["code" := JStr "my_error_code"]> ∅)))).
Proof.
  intros result. subst result. rewrite reducer_failure by reflexivity.
  cbn [payload]. rewrite lookup_insert_ne by done.
  by rewrite lookup_insert_eq.
Qed.

End settings_facts.

Section settings_claims.
Import Settings.
Implicit Types (s : gmap string jsval) (a : action) (now : Z).

(** C1.  A failure action ([FETCH_SETTINGS_FAILURE] or
    [UPDATE_SETTINGS_FAILURE]) with payload [{message, code}] yields a
    state whose [error] is [{message, id: Date.now(), code}] and whose
    other fields are those of the input state.  In particular
    [{error: {}, googleAnalyticsId: null}] with payload
    [{message: {body: 'x', title: 'y'}, code: 'E1'}] becomes
    [{googleAnalyticsId: null,
      error: {message: {body: 'x', title: 'y'}, id: now, code: 'E1'}}]. *)
Theorem failure_action_sets_error now s t (m c : jsval) :
  is_failure t = true →
  let r := settingsReducer now s
             (Action t (<["message" := m]> (<["code" := c]> ∅))) in
  r !! "error"
    = Some (JObj (<["message" := m]>
                  (<["id" := JNum now]> (<["code" := c]> ∅))))
  ∧ (∀ k : string, k ≠ "error" → r !! k = s !! k)
  ∧ settingsReducer now initialState
      (Action FETCH_SETTINGS_FAILURE (failure_payload "x" "y" "E1"))
    = <["googleAnalyticsId" := JNull]>
      (<["error" :=
           JObj (<["message" := JObj (<["body" := JStr "x"]>
                                      (<["title" := JStr "y"]> ∅))]>
                 (<["id" := JNum now]>
                 (<["code" := JStr "E1"]> ∅)))]> ∅).
Proof.
  intros Hf r. subst r. rewrite reducer_failure by exact Hf. cbn [payload].
  split; [|split].
  - rewrite lookup_insert_eq. unfold error_of, prop.
    rewrite lookup_insert_eq, lookup_insert_ne by done.
    by rewrite lookup_insert_eq.
  - intros k Hk. by rewrite lookup_insert_ne.
  - rewrite reducer_failure by reflexivity. cbn [payload].
    apply map_eq. intros k.
    destruct (decide (k = "error")) as [->|Hk];
      [|destruct (decide (k = "googleAnalyticsId")) as [->|Hk']].
    + rewrite lookup_insert_eq, lookup_insert_ne by done.
      rewrite lookup_insert_eq. reflexivity.
    + by rewrite lookup_insert_ne, lookup_insert_eq by done.
    + unfold initialState. by rewrite !lookup_insert_ne by done.
Qed.

Lemma failure_action_sets_error_witness :
  let r := settingsReducer mocked_now initialState
             (Action UPDATE_SETTINGS_FAILURE
                (<["message" := JStr "Unable to update settings data"]>
                 (<["code" := JStr "my_error_code"]> ∅))) in
  r !! "error"
    = Some (JObj (<["message" := JStr "Unable to update settings data"]>
                  (<["id" := JNum mocked_now]>
                  (<["code" := JStr "my_error_code"]> ∅))))
  ∧ r !! "googleAnalyticsId" = Some JNull.
Proof.
  destruct (failure_action_sets_error mocked_now initialState
              UPDATE_SETTINGS_FAILURE
              (JStr "Unable to update settings data")
              (JStr "my_error_code") eq_refl) as (He & Ho & _).
  split; [exact He|].
  rewrite Ho by done. reflexivity.
Defined.

(** C5.  A success action whose payload carries [googleAnalyticsId: v]
    yields a state whose [googleAnalyticsId] is exactly [v]. *)
Theorem success_action_replaces_id now s t (p : gmap string jsval) v :
  is_success t = true →
  p !! "googleAnalyticsId" = Some v →
  settingsReducer now s (Action t p) !! "googleAnalyticsId" = Some v.
Proof.
  intros Ht Hp. rewrite reducer_success by exact Ht. cbn [payload].
  rewrite lookup_insert_eq. unfold prop. by rewrite Hp.
Qed.

Lemma success_action_replaces_id_witness :
  settingsReducer mocked_now initialState
    (Action FETCH_SETTINGS_SUCCESS
       (<["googleAnalyticsId" := JStr "fakeId12345"]> ∅))
    !! "googleAnalyticsId" = Some (JStr "fakeId12345").
Proof.
  apply (success_action_replaces_id mocked_now initialState
           FETCH_SETTINGS_SUCCESS
           (<["googleAnalyticsId" := JStr "fakeId12345"]> ∅)
           (JStr "fakeId12345")).
  - reflexivity.
  - apply lookup_insert_eq.
Defined.

(** C6.  Applying the same success action twice gives the state that
    applying it once gives (whatever the clock reads at either call). *)
Theorem success_action_idempotent now now' s a :
  is_success (type a) = true →
  settingsReducer now' (settingsReducer now s a) a
  = settingsReducer now s a.
Proof.
  intros Ht. rewrite !reducer_success by exact Ht.
  apply insert_insert_eq.
Qed.

Lemma success_action_idempotent_witness :
  let a := Action UPDATE_SETTINGS_SUCCESS
             (<["googleAnalyticsId" := JStr "fakeId12345NEW"]> ∅) in
  settingsReducer (mocked_now + 1)
    (settingsReducer mocked_now initialState a) a
  = settingsReducer mocked_now initialState a.
Proof.
  intros a.
  apply (success_action_idempotent mocked_now (mocked_now + 1)
           initialState a).
  reflexivity.
Defined.

(** C7.  An action whose type is none of the four recognized ones leaves
    the state as it is; the reducer is a total function, so nothing is
    raised. *)
Theorem unrecognized_action_keeps_state now s a :
  recognized (type a) = false →
  settingsReducer now s a = s.
Proof.
  unfold recognized, settingsReducer. intros H.
  apply orb_false_iff in H as [-> ->]. reflexivity.
Qed.

Lemma unrecognized_action_keeps_state_witness :
  settingsReducer mocked_now initialState
    (Action "RESET_SETTINGS" (failure_payload "x" "y" "E1"))
  = initialState.
Proof.
  apply (unrecognized_action_keeps_state mocked_now initialState
           (Action "RESET_SETTINGS" (failure_payload "x" "y" "E1"))).
  reflexivity.
Defined.

End settings_claims.

(** ** Component stubs: refresh and hooks *)

Section stub_facts.
Import Karma.
Implicit Types (st : ComponentStub) (hp : heap) (sc : scope).
Implicit Types (fs : list (scope → jsval)) (hs : list PendingHook).

Lemma refresh_unmounted st : mounted st = None → _refresh st = Ok st.
Proof.
  intros H. unfold _refresh, setRefresher. rewrite H.
  rewrite bool_decide_eq_false_2; [done|]. by intros [? ?].
Qed.

Lemma refresh_mounted st f :
  mounted st = Some f →
  _refresh st
  = Ok (Stub (Component st) (_matcher st) (_implementation st) (_props st)
          (pendingHooks st)
          (Some (Fiber (refresher f) (S (bumps f)) (hooks f) (Impl f)))
          (_wrapper st)).
Proof.
  intros H. unfold _refresh, call_setRefresher, setRefresher. rewrite H.
  rewrite bool_decide_eq_true_2; [done|]. by eexists.
Qed.

(** Without the guard the call would throw before the first render. *)
Lemma call_setRefresher_unmounted st :
  mounted st = None →
  call_setRefresher st = Throw "TypeError: setRefresher is not a function".
Proof. intros H. unfold call_setRefresher, setRefresher. by rewrite H. Qed.

Lemma closures_promises p fs :
  map hook_promise (closures p fs) = seq p (length fs).
Proof.
  revert p. induction fs as [|func fs IH]; intros p; [done|].
  cbn. by rewrite IH.
Qed.

Lemma bumped_0 m : bumped 0 m = m.
Proof. by destruct m as [[]|]. Qed.

Lemma bumped_bumped n k m : bumped n (bumped k m) = bumped (n + k) m.
Proof. destruct m as [[]|]; cbn; [|done]. do 2 f_equal. lia. Qed.

Lemma pushPendingHook_eq func st hp :
  _pushPendingHook func (st, hp)
  = Ok (Stub (Component st) (_matcher st) (_implementation st) (_props st)
          (pendingHooks st
             ++ [Build_PendingHook func (length (cells hp))])
          (bumped 1 (mounted st)) (_wrapper st),
        Heap (cells hp ++ [None]) (settled hp) (calls hp),
        length (cells hp)).
Proof.
  unfold _pushPendingHook, new_promise.
  destruct (mounted st) as [f|] eqn:Hm.
  - erewrite refresh_mounted by reflexivity. reflexivity.
  - rewrite refresh_unmounted by reflexivity. reflexivity.
Qed.

(** Queueing [fs] appends their closures, allocates their promises in
    order and queues one refresh per hook (none before the first
    render). *)
Lemma push_all_eq fs st hp :
  push_all fs (st, hp)
  = Ok (Stub (Component st) (_matcher st) (_implementation st) (_props st)
          (pendingHooks st ++ closures (length (cells hp)) fs)
          (bumped (length fs) (mounted st)) (_wrapper st),
        Heap (cells hp ++ replicate (length fs) None) (settled hp)
          (calls hp),
        seq (length (cells hp)) (length fs)).
Proof.
  revert st hp. induction fs as [|func fs IH]; intros st hp.
  - cbn. rewrite !app_nil_r, bumped_0. by destruct st, hp.
  - cbn [push_all]. rewrite pushPendingHook_eq. cbn [mbind result_bind].
    rewrite IH. cbn.
    rewrite <- !app_assoc, length_app. cbn.
    rewrite Nat.add_1_r, bumped_bumped, Nat.add_1_r. reflexivity.
Qed.

(** Running freshly queued closures resolves their promises in order. *)
Lemma HookExecutor_fresh sc fs cs stl cls :
  HookExecutor sc (closures (length cs) fs)
    (Heap (cs ++ replicate (length fs) None) stl cls)
  = Heap (cs ++ map (fun func => Some (func sc)) fs)
      (stl ++ seq (length cs) (length fs))
      (cls ++ seq (length cs) (length fs)).
Proof.
  revert cs stl cls. induction fs as [|func fs IH]; intros cs stl cls.
  - cbn. by rewrite !app_nil_r.
  - cbn [closures HookExecutor foldl length replicate map seq].
    unfold run_pending at 2. cbn [hook_func hook_promise cells settled calls].
    unfold resolver. cbn [cells settled calls].
    rewrite lookup_app_r by lia. rewrite Nat.sub_diag. cbn [lookup list_lookup].
    rewrite insert_app_r_alt by lia. rewrite Nat.sub_diag. cbn [insert list_insert].
    specialize (IH (cs ++ [Some (func sc)]) (stl ++ [length cs])
                  (cls ++ [length cs])).
    rewrite length_app in IH. cbn [length] in IH.
    rewrite Nat.add_1_r in IH. rewrite <- !app_assoc in IH. cbn in IH.
    unfold HookExecutor in IH. rewrite IH. reflexivity.
Qed.

(** Running closures again once their promises are resolved only
    lengthens the trace of calls. *)
Lemma HookExecutor_resolved sc hs hp :
  (∀ h, h ∈ hs → ∃ v, cells hp !! hook_promise h = Some (Some v)) →
  HookExecutor sc hs hp
  = Heap (cells hp) (settled hp) (calls hp ++ map hook_promise hs).
Proof.
  revert hp. induction hs as [|h hs IH]; intros hp Hres.
  - cbn. rewrite app_nil_r. by destruct hp.
  - cbn [HookExecutor foldl map].
    assert (run_pending sc h hp
            = Heap (cells hp) (settled hp) (calls hp ++ [hook_promise h]))
      as ->.
    { unfold run_pending, resolver. cbn [cells].
      destruct (Hres h) as [v ->]; [left|]. reflexivity. }
    unfold HookExecutor in IH. rewrite IH.
    + cbn. by rewrite <- app_assoc.
    + intros h' Hh'. cbn. apply Hres. by right.
Qed.

(** Renders that find no refresh queued and an empty queue run the
    memoised hooks each time and change nothing else. *)
Lemma renders_again (later : list (jsval * scope)) st hp f :
  mounted st = Some f → bumps f = 0%nat → pendingHooks st = [] →
  (∀ h, h ∈ hooks f → ∃ v, cells hp !! hook_promise h = Some (Some v)) →
  pendingHooks (renders later (st, hp)).1 = []
  ∧ calls (renders later (st, hp)).2
    = calls hp
      ++ concat (replicate (length later) (map hook_promise (hooks f)))
  ∧ cells (renders later (st, hp)).2 = cells hp
  ∧ settled (renders later (st, hp)).2 = settled hp.
Proof.
  revert st hp f. induction later as [|[props sc] later IH];
    intros st hp f Hm Hb Hq Hres.
  - cbn. by rewrite app_nil_r.
  - cbn [renders fst snd].
    assert ((Wrapper props sc (st, hp)).1
            = (Stub (Component st) (_matcher st) (_implementation st) props
                 []
                 (Some (Fiber (refresher f) 0 (hooks f) (Impl f)))
                 (_wrapper st),
               Heap (cells hp) (settled hp)
                 (calls hp ++ map hook_promise (hooks f)))) as ->.
    { unfold Wrapper. rewrite Hm, Hb, Nat.add_0_r, Nat.eqb_refl, Hq.
      cbn [negb from_option fst]. by rewrite HookExecutor_resolved. }
    destruct (IH (Stub (Component st) (_matcher st) (_implementation st)
                    props []
                    (Some (Fiber (refresher f) 0 (hooks f) (Impl f)))
                    (_wrapper st))
                (Heap (cells hp) (settled hp)
                   (calls hp ++ map hook_promise (hooks f)))
                (Fiber (refresher f) 0 (hooks f) (Impl f))
                eq_refl eq_refl eq_refl Hres) as (H1 & H2 & H3 & H4).
    cbn [calls cells settled hooks] in *.
    split; [exact H1|]. split; [|split; [exact H3|exact H4]].
    rewrite H2. cbn [length replicate concat]. by rewrite <- app_assoc.
Qed.

End stub_facts.

Section stub_claims.
Import Karma.
Implicit Types (st : ComponentStub) (hp : heap) (sc : scope).

(** C9.  Before the wrapper has rendered for the first time (the setter
    is still unset) the refresh is a no-op, and [mockImplementation],
    [callFake] and [_pushPendingHook], which all invoke it, return
    normally: the implementation is recorded, respectively the hook is
    queued, and nothing is thrown. *)
Theorem refresh_before_first_render_is_noop st implementation func hp :
  mounted st = None →
  _refresh st = Ok st
  ∧ mockImplementation implementation st
    = Ok (Stub (Component st) (_matcher st) (Some implementation)
            (_props st) (pendingHooks st) None (_wrapper st))
  ∧ callFake implementation st = mockImplementation implementation st
  ∧ _pushPendingHook func (st, hp)
    = Ok (Stub (Component st) (_matcher st) (_implementation st)
            (_props st)
            (pendingHooks st
               ++ [Build_PendingHook func (length (cells hp))])
            None (_wrapper st),
          Heap (cells hp ++ [None]) (settled hp) (calls hp),
          length (cells hp)).
Proof.
  intros Hm. split; [by apply refresh_unmounted|].
  split; [|split; [reflexivity|]].
  - unfold mockImplementation. rewrite refresh_unmounted by done.
    by rewrite Hm.
  - unfold _pushPendingHook, new_promise.
    rewrite refresh_unmounted by done. cbn. by rewrite Hm.
Qed.

Lemma refresh_before_first_render_is_noop_witness :
  let st := new_ComponentStub 0 APIProvider None in
  _refresh st = Ok st
  ∧ mockImplementation "Fixture(APIProvider)" st
    = Ok (Stub APIProvider None (Some "Fixture(APIProvider)") JNull []
            None (WrapperOf 0)).
Proof.
  intros st.
  destruct (refresh_before_first_render_is_noop st "Fixture(APIProvider)"
              (fun _ => JNull) empty_heap eq_refl) as (H1 & H2 & _).
  split; [exact H1|exact H2].
Defined.

(** C2, as the code has it.  Hooks queued on a stub whose queue was
    empty, with no render in between, get promises in queueing order; the
    render pass that follows drains the whole queue, calls each hook once
    in that order, and resolves each promise, in that order, with the
    value its procedure returned in that pass.  Every later render that
    finds the refresher unchanged, however many there are, calls the same
    hooks again, in the same order; the promises keep their first
    values. *)
Theorem queued_hooks_run_fifo_in_next_render st hp
    (fs : list (scope → jsval)) props sc :
  pendingHooks st = [] →
  fs ≠ [] →
  let ps := seq (length (cells hp)) (length fs) in
  ∃ st1 hp1,
    push_all fs (st, hp) = Ok (st1, hp1, ps)
    ∧ let st2 := (Wrapper props sc (st1, hp1)).1.1 in
      let hp2 := (Wrapper props sc (st1, hp1)).1.2 in
      pendingHooks st2 = []
      ∧ calls hp2 = calls hp ++ ps
      ∧ settled hp2 = settled hp ++ ps
      ∧ (∀ (i : nat) func,
           fs !! i = Some func →
           cells hp2 !! (length (cells hp) + i)%nat
           = Some (Some (func sc)))
      ∧ ∀ later : list (jsval * scope),
          let st3 := (renders later (st2, hp2)).1 in
          let hp3 := (renders later (st2, hp2)).2 in
          pendingHooks st3 = []
          ∧ calls hp3 = calls hp2 ++ concat (replicate (length later) ps)
          ∧ cells hp3 = cells hp2
          ∧ settled hp3 = settled hp2.
Proof.
  intros Hq Hfs ps. eexists _, _. split; [subst ps; apply push_all_eq|].
  rewrite Hq. cbn [app].
  assert (0 < length fs)%nat as Hlen
    by (destruct fs; [done|cbn; lia]).
  (* the render that follows recomputes the memoised hooks *)
  assert (∃ r I,
    Wrapper props sc
      (Stub (Component st) (_matcher st) (_implementation st) (_props st)
         (closures (length (cells hp)) fs)
         (bumped (length fs) (mounted st)) (_wrapper st),
       Heap (cells hp ++ replicate (length fs) None) (settled hp)
         (calls hp))
    = (Stub (Component st) (_matcher st) (_implementation st) props []
         (Some (Fiber r 0 (closures (length (cells hp)) fs) I))
         (_wrapper st),
       Heap (cells hp ++ map (fun func => Some (func sc)) fs)
         (settled hp ++ ps) (calls hp ++ ps),
       (I, match props with
           | JObj o => JObj (o ∪ {["_wrapped" := JBool true]})
           | _ => JObj {["_wrapped" := JBool true]}
           end))) as (r & I & HW).
  { unfold Wrapper. cbn [mounted pendingHooks].
    destruct (mounted st) as [f|]; cbn [bumped refresher bumps].
    - assert ((refresher f + (length fs + bumps f) =? refresher f)%nat
              = false) as -> by (apply Nat.eqb_neq; lia).
      cbn [negb]. rewrite HookExecutor_fresh. by eexists _, _.
    - rewrite HookExecutor_fresh. by eexists _, _. }
  rewrite HW. cbn [fst snd pendingHooks calls settled cells].
  split; [done|]. split; [done|]. split; [done|]. split.
  - intros i func Hi.
    rewrite lookup_app_r by lia.
    replace (length (cells hp) + i - length (cells hp))%nat with i by lia.
    by rewrite list_lookup_fmap, Hi.
  - intros later.
    destruct (renders_again later
                (Stub (Component st) (_matcher st) (_implementation st)
                   props []
                   (Some (Fiber r 0 (closures (length (cells hp)) fs) I))
                   (_wrapper st))
                (Heap (cells hp ++ map (fun func => Some (func sc)) fs)
                   (settled hp ++ ps) (calls hp ++ ps))
                (Fiber r 0 (closures (length (cells hp)) fs) I)
                eq_refl eq_refl eq_refl) as (H1 & H2 & H3 & H4).
    + intros h Hh. cbn [cells hooks] in *.
      assert (hook_promise h ∈ seq (length (cells hp)) (length fs)) as Hp.
      { rewrite <- closures_promises. apply list_elem_of_fmap. eauto. }
      apply elem_of_seq in Hp.
      rewrite lookup_app_r by lia.
      rewrite list_lookup_fmap.
      destruct (lookup_lt_is_Some_2 fs
                  (hook_promise h - length (cells hp))) as [func ->]; [lia|].
      cbn. eauto.
    + cbn [hooks calls cells settled] in *.
      rewrite closures_promises in H2. done.
Qed.

Lemma queued_hooks_run_fifo_in_next_render_witness :
  let st := new_ComponentStub 1 WorkspaceLayout None in
  let h1 : scope → jsval := fun sc => opt_chain sc "story" in
  let h2 : scope → jsval := fun _ => JNum 2 in
  let sc := JObj {["story" := JStr "s"]} in
  ∃ st1 hp1,
    push_all [h1; h2] (st, empty_heap) = Ok (st1, hp1, [0; 1]%nat)
    ∧ calls (Wrapper (JObj ∅) sc (st1, hp1)).1.2 = [0; 1]%nat
    ∧ settled (Wrapper (JObj ∅) sc (st1, hp1)).1.2 = [0; 1]%nat.
Proof.
  intros st h1 h2 sc.
  destruct (queued_hooks_run_fifo_in_next_render st empty_heap [h1; h2]
              (JObj ∅) sc eq_refl ltac:(discriminate))
    as (st1 & hp1 & Hpush & _ & Hcalls & Hsettled & _).
  exists st1, hp1. split; [exact Hpush|]. split; assumption.
Defined.

(** C2, as stated, fails: a hook is not run exactly once.  The wrapper
    renders, a hook is queued, the refresh renders the wrapper, and the
    wrapper renders once more because its parent did: the memoised list
    still holds the hook and [HookExecutor] calls it a second time. *)
Lemma hook_runs_again_on_rerender :
  let st := new_ComponentStub 1 WorkspaceLayout None in
  let h : scope → jsval := fun _ => JNum 7 in
  ∃ st' hp',
    run [Render (JObj ∅) JNull; PushPendingHook h;
         Render (JObj ∅) JNull; Render (JObj ∅) JNull] (st, empty_heap)
    = Ok (st', hp')
    ∧ calls hp' = [0; 0]%nat
    ∧ length (filter (fun p => p = 0%nat) (calls hp')) ≠ 1%nat
    ∧ cells hp' = [Some (JNum 7)]
    ∧ settled hp' = [0%nat].
Proof.
  intros st h. eexists _, _. split; [vm_compute; reflexivity|].
  cbn. repeat split; try done.
Qed.

End stub_claims.

(** ** Flags *)

Section flags_claims.
Import Karma.

(** C8.  [setFlags] replaces the flag set: whatever the fixture was
    before, and whatever earlier [setFlags] calls had set, after
    [setFlags(f)] the flags are [f] alone (a flag absent from [f] is
    absent), and nothing else of the fixture changes. *)
Theorem setFlags_replaces (fx : Fixture)
    (earlier : list (gmap string jsval)) (f : gmap string jsval) :
  let fx' := foldl (fun fx g => setFlags g fx) fx (earlier ++ [f]) in
  _flags fx' = f
  ∧ (∀ k : string, f !! k = None → _flags fx' !! k = None)
  ∧ _componentStubs fx' = _componentStubs fx
  ∧ stubStore fx' = stubStore fx
  ∧ _layoutStub fx' = _layoutStub fx.
Proof.
  intros fx'. subst fx'. rewrite foldl_snoc. cbn.
  split; [done|]. split; [done|].
  induction earlier as [|g gs IH] using rev_ind; [done|].
  rewrite foldl_snoc. cbn. exact IH.
Qed.

End flags_claims.

(** ** Stub lookup at element construction *)

Section lookup_facts.
Import Karma.
Implicit Types (fx : Fixture) (rules : list rule) (type : elemType).
Implicit Types (props : jsval).

Lemma ids_from_snoc i rules r type :
  ids_from i (rules ++ [r]) type
  = ids_from i rules type
    ++ (if bool_decide (r.1 = type) then [(i + length rules)%nat] else []).
Proof.
  revert i. induction rules as [|r' rules IH]; intros i; cbn.
  - rewrite Nat.add_0_r. by case_bool_decide.
  - rewrite IH, Nat.add_succ_r. by destruct (bool_decide (r'.1 = type)).
Qed.

Lemma new_Fixture_eq :
  new_Fixture
  = Ok {| _flags := ∅;
          _componentStubs :=
            <[WorkspaceLayout := [1%nat]]> (<[APIProvider := [0%nat]]> ∅);
          stubStore :=
            [Stub APIProvider None (Some "Fixture(APIProvider)") JNull []
               None (WrapperOf 0);
             Stub WorkspaceLayout None None JNull [] None (WrapperOf 1)];
          _layoutStub := 1 |}.
Proof.
  unfold new_Fixture, stubComponent. cbn.
  rewrite lookup_insert_ne by done. reflexivity.
Qed.

Lemma keeps_constructor fx :
  new_Fixture = Ok fx → keeps fx constructor_rules.
Proof.
  rewrite new_Fixture_eq. intros [= <-]. split; [|split; [done|]].
  - intros [|[|i]] r [= <-]; cbn; eauto.
  - intros type. cbn [_componentStubs].
    unfold constructor_rules, ids_from. cbn [fst].
    destruct (decide (WorkspaceLayout = type)) as [<-|Hl].
    + by rewrite lookup_insert_eq.
    + rewrite lookup_insert_ne by done.
      rewrite (bool_decide_eq_false_2 (WorkspaceLayout = type)) by done.
      destruct (decide (APIProvider = type)) as [<-|Ha].
      * by rewrite lookup_insert_eq.
      * rewrite lookup_insert_ne by done.
        by rewrite (bool_decide_eq_false_2 (APIProvider = type)) by done.
Qed.

Lemma keeps_stubComponent fx rules component matcher :
  keeps fx rules →
  keeps (stubComponent component matcher fx).1
        (rules ++ [(component, matcher)]).
Proof.
  intros (Hstore & Hlen & Hmap). unfold stubComponent. cbn [fst].
  split; [|split].
  - intros i r Hi. cbn [stubStore].
    destruct (decide (i < length rules)%nat) as [Hlt|Hge].
    + rewrite lookup_app_l in Hi by done.
      rewrite lookup_app_l by lia. by apply Hstore.
    + rewrite lookup_app_r in Hi by lia.
      rewrite lookup_app_r by lia. rewrite Hlen.
      destruct (i - length rules)%nat as [|k] eqn:Hk; [|done].
      injection Hi as <-. cbn. eexists. split; [done|]. split; [done|].
      cbn. f_equal. lia.
  - cbn [stubStore]. rewrite !length_app, Hlen. done.
  - intros type. cbn [_componentStubs]. rewrite ids_from_snoc. cbn [fst].
    case_bool_decide as Hc.
    + subst type. rewrite lookup_insert_eq. cbn. by rewrite Hmap, Hlen.
    + rewrite lookup_insert_ne by done. by rewrite app_nil_r.
Qed.

Lemma keeps_register_all more fx rules :
  keeps fx rules → keeps (register_all more fx) (rules ++ more).
Proof.
  revert fx rules. induction more as [|[c m] more IH]; intros fx rules H.
  - by rewrite app_nil_r.
  - change (register_all ((c, m) :: more) fx)
      with (register_all more (stubComponent c m fx).1).
    rewrite cons_middle, app_assoc.
    apply IH. by apply keeps_stubComponent.
Qed.

(** [stubs.find] over the array kept for an identity finds the first
    applicable rule. *)
Lemma find_first_rule fx props type rules i :
  (∀ (j : nat) (r : rule),
     rules !! j = Some r →
     ∃ stub, stubStore fx !! (i + j)%nat = Some stub
             ∧ _matcher stub = r.2) →
  List.find (stub_matches fx props) (ids_from i rules type)
  = first_rule i rules type props.
Proof.
  revert i. induction rules as [|r rules IH]; intros i Hst; [done|].
  cbn [ids_from first_rule]. unfold rule_applies.
  assert (∀ (j : nat) r', rules !! j = Some r' →
            ∃ stub, stubStore fx !! (S i + j)%nat = Some stub
                    ∧ _matcher stub = r'.2) as Hst'.
  { intros j r' Hj. destruct (Hst (S j) r' Hj) as (stub & H1 & H2).
    exists stub. by rewrite Nat.add_succ_comm. }
  case_bool_decide as Hc; cbn [andb].
  - cbn [List.find].
    destruct (Hst 0%nat r eq_refl) as (stub & H1 & H2).
    rewrite Nat.add_0_r in H1.
    unfold stub_matches at 1. rewrite H1, H2.
    destruct (r.2) as [m|]; [destruct (truthy (m props))|]; auto.
  - auto.
Qed.

Lemma first_rule_bound i rules type props k :
  first_rule i rules type props = Some k →
  (i ≤ k < i + length rules)%nat.
Proof.
  revert i. induction rules as [|r rules IH]; intros i; [done|].
  cbn. destruct (rule_applies type props r).
  - intros [= <-]. lia.
  - intros H. apply IH in H. lia.
Qed.

Lemma first_rule_app i rules more type props :
  first_rule i (rules ++ more) type props
  = match first_rule i rules type props with
    | Some k => Some k
    | None => first_rule (i + length rules) more type props
    end.
Proof.
  revert i. induction rules as [|r rules IH]; intros i; cbn.
  - by rewrite Nat.add_0_r.
  - destruct (rule_applies type props r); [done|].
    by rewrite IH, Nat.add_succ_r.
Qed.

Lemma first_rule_other i rules type props :
  (∀ r, r ∈ rules → r.1 ≠ type) →
  first_rule i rules type props = None.
Proof.
  revert i. induction rules as [|r rules IH]; intros i H; [done|].
  cbn. unfold rule_applies.
  rewrite bool_decide_eq_false_2 by (apply H; left).
  cbn. apply IH. intros r' Hr'. apply H. by right.
Qed.

(** What the intercepted [createElement] does on a fixture that keeps
    [rules]. *)
Lemma createElement_keeps fx rules type props :
  keeps fx rules →
  createElement fx type props
  = if truthy (opt_chain props "_wrapped") then type
    else spec_lookup rules type props.
Proof.
  intros (Hstore & Hlen & Hmap). unfold createElement.
  destruct (truthy (opt_chain props "_wrapped")); cbn [negb]; [done|].
  unfold spec_lookup.
  assert (List.find (stub_matches fx props)
            (default [] (_componentStubs fx !! type))
          = first_rule 0 rules type props) as Hfind.
  { rewrite Hmap. apply find_first_rule. intros j r Hj.
    destruct (Hstore j r Hj) as (stub & ? & ? & ?). eauto. }
  destruct (_componentStubs fx !! type) as [stubs|]; cbn in Hfind.
  - rewrite Hfind.
    destruct (first_rule 0 rules type props) as [k|] eqn:Hk; [|done].
    apply first_rule_bound in Hk.
    destruct (lookup_lt_is_Some_2 rules k) as [r Hr]; [lia|].
    destruct (Hstore k r Hr) as (stub & -> & _ & ->). done.
  - by rewrite <- Hfind.
Qed.

End lookup_facts.

Section lookup_claims.
Import Karma.
Implicit Types (fx : Fixture) (rules : list rule) (type : elemType).
Implicit Types (props : jsval).

Lemma fixture_with_keeps rules :
  ∃ fx, fixture_with rules = Ok fx
        ∧ keeps fx (constructor_rules ++ rules).
Proof.
  unfold fixture_with. rewrite new_Fixture_eq. cbn [mbind result_bind].
  eexists. split; [reflexivity|].
  apply keeps_register_all, keeps_constructor, new_Fixture_eq.
Qed.

(** C3, as the code has it.  On a fixture set up by [new Fixture()] and
    any [stubComponent] calls, an element constructed for [type] with
    props that carry no truthy [_wrapped] marker gets the wrapper of the
    first rule, in registration order (the constructor's two rules
    first), that was registered for [type] and whose predicate is absent
    or returns a truthy value for the props; with no such rule, and
    whenever the props carry the marker, the type stays as it is.  So
    when the rules for [type] are a rule with predicate [p] followed by
    an unconditional one, unmarked props satisfying [p] select the
    first's wrapper and unmarked props not satisfying [p] the second's. *)
Theorem stub_lookup_first_applicable_rule rules :
  ∃ fx,
    fixture_with rules = Ok fx
    ∧ (∀ type props,
         createElement fx type props
         = if truthy (opt_chain props "_wrapped") then type
           else spec_lookup (constructor_rules ++ rules) type props)
    ∧ (∀ type props,
         first_rule 0 (constructor_rules ++ rules) type props = None →
         createElement fx type props = type)
    ∧ (∀ type p r1 r2 r3 props,
         rules = r1 ++ [(type, Some p)] ++ r2 ++ [(type, None)] ++ r3 →
         (∀ r, r ∈ constructor_rules ++ r1 ++ r2 → r.1 ≠ type) →
         truthy (opt_chain props "_wrapped") = false →
         createElement fx type props
         = if truthy (p props) then WrapperOf (2 + length r1)
           else WrapperOf (3 + length r1 + length r2)).
Proof.
  destruct (fixture_with_keeps rules) as (fx & Hfx & Hk).
  exists fx. split; [exact Hfx|].
  split; [intros; by apply createElement_keeps|]. split.
  - intros type props Hnone. rewrite (createElement_keeps _ _ _ _ Hk).
    unfold spec_lookup. rewrite Hnone. by destruct (truthy _).
  - intros type p r1 r2 r3 props -> Hother Hw.
    rewrite (createElement_keeps _ _ _ _ Hk), Hw. unfold spec_lookup.
    rewrite first_rule_app.
    rewrite first_rule_other
      by (intros r Hr; apply Hother; rewrite !elem_of_app; tauto).
    rewrite first_rule_app.
    rewrite first_rule_other
      by (intros r Hr; apply Hother; rewrite !elem_of_app; tauto).
    cbn [app first_rule length Nat.add]. unfold rule_applies at 1.
    cbn [fst snd]. rewrite bool_decide_eq_true_2 by done. cbn [andb].
    destruct (truthy (p props)); [done|].
    rewrite first_rule_app.
    rewrite first_rule_other
      by (intros r Hr; apply Hother; rewrite !elem_of_app; tauto).
    cbn [app first_rule length Nat.add]. unfold rule_applies at 1.
    cbn [fst snd]. rewrite bool_decide_eq_true_2 by done. cbn [andb].
    reflexivity.
Qed.

Lemma stub_lookup_first_applicable_rule_witness :
  let isText : jsval → jsval :=
    fun props => match opt_chain props "kind" with
                 | JStr kind => JBool (String.eqb kind "text")
                 | _ => JBool false
                 end in
  ∃ fx,
    fixture_with [(Comp "Element", Some isText); (Comp "Element", None)]
    = Ok fx
    ∧ createElement fx (Comp "Element") (JObj {["kind" := JStr "text"]})
      = WrapperOf 2
    ∧ createElement fx (Comp "Element") (JObj {["kind" := JStr "image"]})
      = WrapperOf 3
    ∧ createElement fx (Comp "Canvas") (JObj ∅) = Comp "Canvas".
Proof.
  intros isText.
  destruct (stub_lookup_first_applicable_rule
              [(Comp "Element", Some isText); (Comp "Element", None)])
    as (fx & Hfx & _ & Hnone & Htwo).
  assert (∀ r : rule, r ∈ constructor_rules ++ [] ++ [] →
                      r.1 ≠ Comp "Element") as Hother.
  { intros r Hr. cbn in Hr. set_unfold in Hr.
    destruct Hr as [->|[->|[]]]; done. }
  exists fx. split; [exact Hfx|]. split; [|split].
  - etrans.
    + apply (Htwo (Comp "Element") isText [] [] []
               (JObj {["kind" := JStr "text"]}) eq_refl Hother).
      reflexivity.
    + reflexivity.
  - etrans.
    + apply (Htwo (Comp "Element") isText [] [] []
               (JObj {["kind" := JStr "image"]}) eq_refl Hother).
      reflexivity.
    + reflexivity.
  - apply Hnone. reflexivity.
Defined.

(** C3, as stated, fails twice.  Props that carry the [_wrapped] marker
    bypass the lookup, so an unconditional rule registered for the
    identity does not supply the replacement; and of a predicated and an
    unconditional rule for one identity, the unconditional one wins for
    props satisfying the predicate when it was registered first. *)
Lemma lookup_bypassed_or_shadowed :
  let Element := Comp "Element" in
  let always : jsval → jsval := fun _ => JBool true in
  let marked := JObj {["_wrapped" := JBool true]} in
  (∃ fx,
     fixture_with [(Element, None)] = Ok fx
     ∧ spec_lookup (constructor_rules ++ [(Element, None)]) Element marked
       = WrapperOf 2
     ∧ createElement fx Element marked = Element)
  ∧ (∃ fx,
       fixture_with [(Element, None); (Element, Some always)] = Ok fx
       ∧ truthy (always (JObj ∅)) = true
       ∧ createElement fx Element (JObj ∅) = WrapperOf 2
       ∧ createElement fx Element (JObj ∅) ≠ WrapperOf 3).
Proof.
  intros Element always marked. split.
  - destruct (fixture_with_keeps [(Element, None)]) as (fx & Hfx & Hk).
    exists fx. split; [exact Hfx|]. split; [reflexivity|].
    rewrite (createElement_keeps _ _ _ _ Hk). reflexivity.
  - destruct (fixture_with_keeps [(Element, None); (Element, Some always)])
      as (fx & Hfx & Hk).
    exists fx. split; [exact Hfx|]. split; [reflexivity|].
    rewrite (createElement_keeps _ _ _ _ Hk).
    split; [reflexivity|]. discriminate.
Qed.

End lookup_claims.

(** ** [act] *)

Section act_claims.
Import Karma.
Implicit Types (w : scheduler) (r : returned) (v : jsval).

Lemma await_Promise_resolve r w : await (Promise_resolve r) w = await r w.
Proof. by destruct r. Qed.

(** The body always returns a thenable: a promise as it is, a plain value
    as a promise fulfilled with it and with no work behind it. *)
Lemma actPromise_body_thenable (cb : callback) w w1 r :
  cb w = (w1, Return r) →
  actPromise_body cb w
  = (w1, Some r, inl (Promise (fun w => (await r w).1) (adopt r))).
Proof.
  intros H. unfold actPromise_body. rewrite H. by destruct r.
Qed.

Section boundary.

Variable act' : boundary.
Hypothesis act'_flushes : flushes_after_thenable act'.

(** C4.  Over every scheduling boundary that keeps the library's promise
    for thenables (wait for the thenable, flush, then fulfil): when the
    procedure returns (a plain value [v], or a promise that fulfils with
    [v] after its asynchronous work), what [actPromise] hands to the
    boundary is a thenable that fulfils with [v], the plain value having
    been normalized to a promise, so the boundary's promise applies; the
    promise of [actPromise] fulfils with [v], and when it does the
    scheduler has nothing queued: every update queued by the procedure
    or by its asynchronous work has been applied. *)
Theorem act_resolves_after_flush (cb : callback) w w1 r v :
  cb w = (w1, Return r) →
  adopt r = Fulfilled v →
  let w2 := (await r w1).1 in
  (∃ work, actPromise_body cb w
           = (w1, Some r, inl (Promise work (Fulfilled v)))
           ∧ work w1 = w2)
  ∧ actPromise_with act' cb w = (flushWork w2, Fulfilled v)
  ∧ queued (actPromise_with act' cb w).1 = []
  ∧ applied (actPromise_with act' cb w).1 = applied w2 ++ queued w2
  ∧ (∀ x, r = Value x → v = x ∧ w2 = w1).
Proof.
  intros Hcb Hv w2.
  pose proof (actPromise_body_thenable cb w w1 r Hcb) as Hbody.
  rewrite Hv in Hbody.
  assert (actPromise_with act' cb w = (flushWork w2, Fulfilled v)) as Heq.
  { unfold actPromise_with.
    rewrite (act'_flushes _ _ _ _ _ _ _ Hbody). by rewrite Hv. }
  split; [by eexists|].
  rewrite Heq. split; [done|]. split; [done|]. split; [done|].
  intros x ->. cbn in Hv. injection Hv as <-. done.
Qed.

End boundary.

Lemma act_resolves_after_flush_witness :
  let cb : callback := fun w =>
    (Scheduler (applied w) (queued w ++ ["setSelection"]),
     Return (Promise
               (fun w => Scheduler (applied w) (queued w ++ ["setMedia"]))
               (Fulfilled (JStr "done")))) in
  actPromise cb (Scheduler ["mount"] [])
  = (Scheduler ["mount"; "setSelection"; "setMedia"] [],
     Fulfilled (JStr "done")).
Proof.
  intros cb.
  assert (flushes_after_thenable (@act)) as Hact.
  { intros V body w w1 vars work x Hbody. unfold act. rewrite Hbody.
    reflexivity. }
  destruct (act_resolves_after_flush (@act) Hact cb (Scheduler ["mount"] [])
              (Scheduler ["mount"] ["setSelection"])
              (Promise
                 (fun w => Scheduler (applied w) (queued w ++ ["setMedia"]))
                 (Fulfilled (JStr "done")))
              (JStr "done") eq_refl eq_refl) as (_ & H & _).
  exact H.
Defined.

End act_claims.

(** ** Panel title *)

Section panel_claims.
Import Panel.
#[local] Open Scope Z_scope.

Variable Math_round_70_percent : Z → Z.
Hypothesis Math_round_nonneg :
  ∀ x, 0 ≤ x → 0 ≤ Math_round_70_percent x.

(** C10.  With a non-negative inspector content height, a resizeable
    panel's new height is
    [max(0, min(round(inspectorContentHeight * 0.7), value + deltaHeight))]
    for every current height [value] and every [deltaHeight], so it lies
    in [[0, round(inspectorContentHeight * 0.7)]], and stays there under
    any further height changes; a panel that is not resizeable is left
    as it is. *)
Theorem handleHeightChange_clamps
    (inspectorContentHeight deltaHeight : Z) (p : panel)
    (more : list Z) :
  0 ≤ inspectorContentHeight →
  let M := maxHeight Math_round_70_percent inspectorContentHeight in
  let change := handleHeightChange Math_round_70_percent
                  inspectorContentHeight in
  let p' := change deltaHeight p in
  if resizeable p then
    height p' = Z.max 0 (Z.min M (height p + deltaHeight))
    ∧ resizeable p' = true
    ∧ 0 ≤ height p' ≤ M
    ∧ 0 ≤ height (foldl (fun p d => change d p) p' more) ≤ M
  else p' = p ∧ foldl (fun p d => change d p) p' more = p.
Proof.
  intros Hh M change p'.
  assert (0 ≤ M) as HM by (apply Math_round_nonneg, Hh).
  destruct (resizeable p) eqn:Hr.
  - assert (∀ q d, resizeable q = true →
              resizeable (change d q) = true
              ∧ 0 ≤ height (change d q) ≤ M) as Hstep.
    { intros q d Hq. unfold change, handleHeightChange, setHeight.
      rewrite Hq. cbn. fold M. split; [done|lia]. }
    assert (height p' = Z.max 0 (Z.min M (height p + deltaHeight))) as Hp'.
    { subst p'. unfold change, handleHeightChange, setHeight.
      rewrite Hr. reflexivity. }
    destruct (Hstep p deltaHeight Hr) as [Hr' Hin]. fold p' in Hr', Hin.
    split; [exact Hp'|]. split; [exact Hr'|]. split; [exact Hin|].
    clearbody p'. clear Hp'. revert p' Hr' Hin.
    induction more as [|d more IH]; intros q Hq Hin; [exact Hin|].
    cbn [foldl]. destruct (Hstep q d Hq) as [Hq' Hin']. by apply IH.
  - assert (∀ d, change d p = p) as Hid.
    { intros d. unfold change, handleHeightChange. by rewrite Hr. }
    subst p'. rewrite Hid. split; [done|].
    induction more as [|d more IH]; [done|]. cbn [foldl]. by rewrite Hid.
Qed.

End panel_claims.

Lemma handleHeightChange_clamps_witness :
  let p := {| Panel.height := 250; Panel.resizeable := true |} in
  let p' := Panel.handleHeightChange Panel.exact_round_70_percent 400 100 p in
  (0 ≤ 400)%Z
  ∧ Panel.height p' = 280%Z
  ∧ (0 ≤ Panel.height p' ≤ 280)%Z.
Proof.
  intros p p'.
  assert (∀ x, (0 ≤ x)%Z → (0 ≤ Panel.exact_round_70_percent x)%Z) as Hround.
  { intros x Hx. unfold Panel.exact_round_70_percent.
    apply Z.div_pos; lia. }
  pose proof (handleHeightChange_clamps Panel.exact_round_70_percent Hround
                400 100 p [] ltac:(lia)) as H.
  cbn in H. destruct H as (H1 & _ & H2 & _).
  split; [lia|]. split; [exact H1|exact H2].
Defined.

(* ===================================================================== *)
(** * Further properties of the fixture *)
(* ===================================================================== *)

Section stub_runs.
Import Karma.
Implicit Types (st : ComponentStub) (hp : heap) (sc : scope).
Implicit Types (es : list event) (sh : ComponentStub * heap).

Lemma mockImplementation_eq implementation st :
  mockImplementation implementation st
  = Ok (Stub (Component st) (_matcher st) (Some implementation) (_props st)
          (pendingHooks st) (bumped 1 (mounted st)) (_wrapper st)).
Proof.
  unfold mockImplementation.
  destruct (mounted st) as [f|] eqn:Hm.
  - erewrite refresh_mounted by reflexivity. reflexivity.
  - rewrite refresh_unmounted by reflexivity. reflexivity.
Qed.

Lemma step_eq e sh :
  step e sh
  = Ok match e with
       | Render props sc => (Wrapper props sc sh).1
       | PushPendingHook func =>
           (Stub (Component sh.1) (_matcher sh.1) (_implementation sh.1)
              (_props sh.1)
              (pendingHooks sh.1
                 ++ [Build_PendingHook func (length (cells sh.2))])
              (bumped 1 (mounted sh.1)) (_wrapper sh.1),
            Heap (cells sh.2 ++ [None]) (settled sh.2) (calls sh.2))
       | MockImplementation implementation =>
           (Stub (Component sh.1) (_matcher sh.1) (Some implementation)
              (_props sh.1) (pendingHooks sh.1) (bumped 1 (mounted sh.1))
              (_wrapper sh.1), sh.2)
       end.
Proof.
  destruct sh as [st hp]. destruct e as [props sc|func|implementation].
  - reflexivity.
  - unfold step. rewrite pushPendingHook_eq. reflexivity.
  - unfold step. cbn [fst snd]. rewrite mockImplementation_eq. reflexivity.
Qed.

Lemma run_cons e es sh :
  run (e :: es) sh
  = run es match e with
           | Render props sc => (Wrapper props sc sh).1
           | PushPendingHook func =>
               (Stub (Component sh.1) (_matcher sh.1) (_implementation sh.1)
                  (_props sh.1)
                  (pendingHooks sh.1
                     ++ [Build_PendingHook func (length (cells sh.2))])
                  (bumped 1 (mounted sh.1)) (_wrapper sh.1),
                Heap (cells sh.2 ++ [None]) (settled sh.2) (calls sh.2))
           | MockImplementation implementation =>
               (Stub (Component sh.1) (_matcher sh.1) (Some implementation)
                  (_props sh.1) (pendingHooks sh.1)
                  (bumped 1 (mounted sh.1)) (_wrapper sh.1), sh.2)
           end.
Proof. cbn [run]. by rewrite step_eq. Qed.

Lemma run_ok es sh : ∃ sh', run es sh = Ok sh'.
Proof.
  revert sh. induction es as [|e es IH]; intros sh; [by eexists|].
  rewrite run_cons. apply IH.
Qed.

(** X2.  The [props] getter returns the props of the most recent render of
    the wrapper; pushing hooks and changing the implementation leave it
    alone, and before any render it is what it was ([null] on a new
    stub). *)
Theorem props_are_last_rendered es sh sh' :
  run es sh = Ok sh' →
  props sh'.1 = last_props es (props sh.1)
  ∧ (forallb (fun e => negb (is_render e)) es = true →
     props sh'.1 = props sh.1).
Proof.
  revert sh. induction es as [|e es IH]; intros sh.
  - intros [= <-]. done.
  - rewrite run_cons. intros Hrun.
    destruct (IH _ Hrun) as [IH1 IH2]. split.
    + rewrite IH1. destruct sh as [st hp].
      destruct e as [pr sc|func|implementation]; reflexivity.
    + cbn [forallb]. intros [He Hes]%andb_true_iff.
      rewrite (IH2 Hes). destruct sh as [st hp].
      destruct e as [pr sc|func|implementation]; [done|reflexivity..].
Qed.

Lemma props_are_last_rendered_witness :
  ∃ sh',
    run [Render (JObj {["zoom" := JNum 1]}) JNull;
         PushPendingHook (fun _ => JNull);
         Render (JObj {["zoom" := JNum 2]}) JNull;
         MockImplementation "Fake"]
      (new_ComponentStub 1 WorkspaceLayout None, empty_heap) = Ok sh'
    ∧ props sh'.1 = JObj {["zoom" := JNum 2]}.
Proof.
  destruct (run_ok
              [Render (JObj {["zoom" := JNum 1]}) JNull;
               PushPendingHook (fun _ => JNull);
               Render (JObj {["zoom" := JNum 2]}) JNull;
               MockImplementation "Fake"]
              (new_ComponentStub 1 WorkspaceLayout None, empty_heap))
    as [sh' Hrun].
  exists sh'. split; [exact Hrun|].
  exact (proj1 (props_are_last_rendered _ _ _ Hrun)).
Defined.

Lemma HookExecutor_cons sc h hs hp :
  HookExecutor sc (h :: hs) hp = HookExecutor sc hs (run_pending sc h hp).
Proof. reflexivity. Qed.

(** Running queued hooks whose promises are pending and in increasing
    order resolves each of them, in that order, and nothing else
    changes. *)
Lemma HookExecutor_pending sc hs hp :
  StronglySorted lt (promises_of hs) →
  (∀ h, h ∈ hs → cells hp !! hook_promise h = Some None) →
  settled (HookExecutor sc hs hp) = settled hp ++ promises_of hs
  ∧ length (cells (HookExecutor sc hs hp)) = length (cells hp)
  ∧ (∀ h, h ∈ hs →
       ∃ v, cells (HookExecutor sc hs hp) !! hook_promise h = Some (Some v))
  ∧ (∀ (p : nat) v, cells hp !! p = Some (Some v) →
       cells (HookExecutor sc hs hp) !! p = Some (Some v)).
Proof.
  revert hp. induction hs as [|h hs IH]; intros hp Hs Hp.
  - cbn. rewrite app_nil_r. repeat split; [|done]. intros h Hh.
    by apply elem_of_nil in Hh.
  - unfold promises_of in Hs. cbn [map] in Hs.
    apply StronglySorted_cons in Hs as [Hlt Hs].
    rewrite HookExecutor_cons.
    assert (cells hp !! hook_promise h = Some None) as Hh
      by (apply Hp; left).
    assert (run_pending sc h hp
            = Heap (<[hook_promise h := Some (hook_func h sc)]> (cells hp))
                (settled hp ++ [hook_promise h])
                (calls hp ++ [hook_promise h])) as Hrun.
    { unfold run_pending, resolver. cbn [cells settled calls].
      by rewrite Hh. }
    rewrite Hrun.
    assert (∀ h', h' ∈ hs → hook_promise h ≠ hook_promise h') as Hne.
    { intros h' Hh'. rewrite Forall_forall in Hlt.
      assert (hook_promise h < hook_promise h')%nat; [|lia].
      apply Hlt. apply list_elem_of_fmap. eauto. }
    destruct (IH (Heap (<[hook_promise h := Some (hook_func h sc)]> (cells hp))
                    (settled hp ++ [hook_promise h])
                    (calls hp ++ [hook_promise h])) Hs)
      as (IH1 & IH2 & IH3 & IH4).
    { intros h' Hh'. cbn [cells].
      rewrite list_lookup_insert_ne by (by apply Hne).
      apply Hp. by right. }
    cbn [cells settled] in *. split; [|split; [|split]].
    + rewrite IH1, <- app_assoc. reflexivity.
    + by rewrite IH2, length_insert.
    + intros h' [->|Hh']%elem_of_cons; [|by apply IH3].
      eexists. apply IH4. apply list_lookup_insert_eq.
      by apply lookup_lt_Some in Hh.
    + intros p v Hpv. apply IH4.
      rewrite list_lookup_insert_ne; [done|]. intros <-. congruence.
Qed.

Lemma HookExecutor_calls sc hs hp :
  calls (HookExecutor sc hs hp) = calls hp ++ promises_of hs.
Proof.
  revert hp. induction hs as [|h hs IH]; intros hp.
  - cbn. by rewrite app_nil_r.
  - rewrite HookExecutor_cons, IH. unfold run_pending, resolver.
    cbn [cells settled calls].
    destruct (cells hp !! hook_promise h) as [[v|]|]; cbn;
      by rewrite <- app_assoc.
Qed.

(** A render that finds the wrapper unmounted or a refresh queued drains
    the queue. *)
Lemma Wrapper_drains props sc st hp :
  match mounted st with
  | Some f => (0 < bumps f)%nat
  | None => True
  end →
  ∃ r,
    (Wrapper props sc (st, hp)).1
    = (Stub (Component st) (_matcher st) (_implementation st) props []
         (Some (Fiber r 0 (pendingHooks st) (choose_Impl st)))
         (_wrapper st),
       HookExecutor sc (pendingHooks st) hp).
Proof.
  intros H. unfold Wrapper. destruct (mounted st) as [f|].
  - assert ((refresher f + bumps f =? refresher f)%nat = false) as ->
      by (apply Nat.eqb_neq; lia).
    by eexists.
  - by eexists.
Qed.

(** A render that finds no refresh queued runs the memoised hooks. *)
Lemma Wrapper_rerenders props sc st hp f :
  mounted st = Some f → bumps f = 0%nat →
  (Wrapper props sc (st, hp)).1
  = (Stub (Component st) (_matcher st) (_implementation st) props
       (pendingHooks st)
       (Some (Fiber (refresher f) 0 (hooks f) (Impl f)))
       (_wrapper st),
     HookExecutor sc (hooks f) hp).
Proof.
  intros Hm Hb. unfold Wrapper. rewrite Hm, Hb, Nat.add_0_r, Nat.eqb_refl.
  reflexivity.
Qed.

Lemma StronglySorted_lt_snoc (l : list nat) (n : nat) :
  StronglySorted lt l → (∀ x, x ∈ l → (x < n)%nat) →
  StronglySorted lt (l ++ [n]).
Proof.
  intros Hl Hn. apply StronglySorted_app. split; [|split; [done|]].
  - intros x1 x2 H1 ->%list_elem_of_singleton. by apply Hn.
  - repeat constructor.
Qed.

Lemma consistent_new id Component matcher :
  consistent (new_ComponentStub id Component matcher, empty_heap).
Proof.
  cbn. split; [done|]. split; [intros p Hp; lia|].
  split; [intros h Hh; by apply elem_of_nil in Hh|].
  split; [constructor|]. split; [intros p Hp; by apply elem_of_nil in Hp|].
  intros f h [=].
Qed.

Lemma consistent_render props sc sh :
  consistent sh → consistent (Wrapper props sc sh).1.
Proof.
  destruct sh as [st hp]. intros (Ha & Hb & Hc & Hd & Hf & He).
  assert (match mounted st with
          | Some f => (0 < bumps f)%nat
          | None => True
          end
          ∨ ∃ f, mounted st = Some f ∧ bumps f = 0%nat) as [Hdrain|Hsame].
  { destruct (mounted st) as [f|]; [|by left].
    destruct (bumps f) eqn:Hb'; [right; by eexists|left; lia]. }
  - destruct (Wrapper_drains props sc st hp Hdrain) as [r ->].
    destruct (HookExecutor_pending sc (pendingHooks st) hp)
      as (H1 & H2 & H3 & H4).
    { by apply StronglySorted_app_1_r in Hd. }
    { exact Hc. }
    cbn [consistent mounted pendingHooks bumps hooks].
    split; [by left|]. split; [|split; [|split; [|split]]].
    + intros p Hp. left. rewrite H2 in Hp.
      destruct (Hb p Hp) as [[v Hv]|Hin]; [eauto|].
      apply list_elem_of_fmap in Hin as (h & -> & Hh). by apply H3.
    + intros h Hh. by apply elem_of_nil in Hh.
    + cbn. by rewrite app_nil_r, H1.
    + intros p. rewrite H1, H2. intros [Hp|Hp]%elem_of_app; [by apply Hf|].
      apply list_elem_of_fmap in Hp as (h & -> & Hh).
      eapply lookup_lt_Some, Hc, Hh.
    + intros f h [= <-] Hh. cbn [hooks] in Hh. by apply H3.
  - destruct Hsame as (f & Hm & Hb0).
    rewrite (Wrapper_rerenders props sc st hp f Hm Hb0).
    rewrite Hm in Ha. destruct Ha as [Ha|Ha]; [|lia].
    rewrite HookExecutor_resolved by (intros h Hh; by eapply He).
    cbn [consistent mounted pendingHooks bumps hooks cells settled].
    split; [by left|]. split; [exact Hb|]. split; [exact Hc|].
    split; [exact Hd|]. split; [exact Hf|].
    intros f' h [= <-] Hh. cbn [hooks] in Hh. by eapply He.
Qed.

Lemma consistent_push func sh :
  consistent sh →
  consistent
    (Stub (Component sh.1) (_matcher sh.1) (_implementation sh.1)
       (_props sh.1)
       (pendingHooks sh.1 ++ [Build_PendingHook func (length (cells sh.2))])
       (bumped 1 (mounted sh.1)) (_wrapper sh.1),
     Heap (cells sh.2 ++ [None]) (settled sh.2) (calls sh.2)).
Proof.
  destruct sh as [st hp]. intros (Ha & Hb & Hc & Hd & Hf & He).
  cbn [fst snd consistent mounted pendingHooks cells settled].
  split; [|split; [|split; [|split; [|split]]]].
  - destruct (mounted st) as [f|]; cbn; [right; lia|done].
  - intros p. rewrite length_app. cbn [length]. intros Hp.
    destruct (decide (p < length (cells hp))%nat) as [Hlt|Hge].
    + rewrite lookup_app_l by done. unfold promises_of. rewrite map_app.
      destruct (Hb p Hlt) as [?|?]; [by left|right].
      apply elem_of_app. by left.
    + right. unfold promises_of. rewrite map_app. apply elem_of_app.
      right. cbn. apply list_elem_of_singleton. lia.
  - intros h [Hh| ->%list_elem_of_singleton]%elem_of_app.
    + rewrite lookup_app_l by (eapply lookup_lt_Some, Hc, Hh).
      by apply Hc.
    + cbn. rewrite lookup_app_r by lia. by rewrite Nat.sub_diag.
  - unfold promises_of. rewrite map_app, app_assoc. cbn [map hook_promise].
    apply StronglySorted_lt_snoc; [exact Hd|].
    intros x [Hx|Hx]%elem_of_app; [by apply Hf|].
    apply list_elem_of_fmap in Hx as (h & -> & Hh).
    eapply lookup_lt_Some, Hc, Hh.
  - intros p Hp. rewrite length_app. cbn. apply Hf in Hp. lia.
  - intros f h Hm Hh. destruct (mounted st) as [f0|] eqn:Hm0; [|done].
    cbn in Hm. injection Hm as <-. cbn [hooks] in Hh.
    destruct (He f0 h eq_refl Hh) as [v Hv]. exists v.
    rewrite lookup_app_l by (by eapply lookup_lt_Some). exact Hv.
Qed.

Lemma consistent_mock implementation sh :
  consistent sh →
  consistent
    (Stub (Component sh.1) (_matcher sh.1) (Some implementation)
       (_props sh.1) (pendingHooks sh.1) (bumped 1 (mounted sh.1))
       (_wrapper sh.1), sh.2).
Proof.
  destruct sh as [st hp]. intros (Ha & Hb & Hc & Hd & Hf & He).
  cbn [fst snd consistent mounted pendingHooks].
  split; [|split; [done|split; [done|split; [done|split; [done|]]]]].
  - destruct (mounted st) as [f|]; cbn; [right; lia|done].
  - intros f h Hm Hh. destruct (mounted st) as [f0|] eqn:Hm0; [|done].
    cbn in Hm. injection Hm as <-. cbn [hooks] in Hh.
    by apply (He f0 h eq_refl).
Qed.

Lemma consistent_run es sh sh' :
  consistent sh → run es sh = Ok sh' → consistent sh'.
Proof.
  revert sh. induction es as [|e es IH]; intros sh Hc.
  - by intros [= <-].
  - rewrite run_cons. apply IH.
    destruct e as [props sc|func|implementation].
    + by apply consistent_render.
    + by apply consistent_push.
    + by apply consistent_mock.
Qed.

(** X3.  Over the whole life of a stub, promises are resolved in the
    order in which [_pushPendingHook] created them, batch after batch,
    and every promise still waiting in the queue was created after all
    the resolved ones. *)
Theorem promises_resolve_in_creation_order id Component matcher es st hp :
  run es (new_ComponentStub id Component matcher, empty_heap) = Ok (st, hp) →
  StronglySorted lt (settled hp)
  ∧ ∀ p q : nat,
      p ∈ settled hp → q ∈ promises_of (pendingHooks st) → (p < q)%nat.
Proof.
  intros Hrun.
  pose proof (consistent_run _ _ _ (consistent_new id Component matcher) Hrun)
    as (_ & _ & _ & Hd & _).
  apply StronglySorted_app in Hd as (Hlt & Hs & _). split; [exact Hs|].
  intros p q Hp Hq. by apply Hlt.
Qed.

Lemma promises_resolve_in_creation_order_witness :
  ∃ st hp,
    run [PushPendingHook (fun _ => JNum 1); Render JNull JNull;
         PushPendingHook (fun _ => JNum 2); PushPendingHook (fun sc => sc);
         Render JNull JNull; Render JNull JNull;
         PushPendingHook (fun _ => JNum 4)]
      (new_ComponentStub 1 WorkspaceLayout None, empty_heap) = Ok (st, hp)
    ∧ StronglySorted lt (settled hp).
Proof.
  destruct (run_ok
              [PushPendingHook (fun _ => JNum 1); Render JNull JNull;
               PushPendingHook (fun _ => JNum 2);
               PushPendingHook (fun sc => sc);
               Render JNull JNull; Render JNull JNull;
               PushPendingHook (fun _ => JNum 4)]
              (new_ComponentStub 1 WorkspaceLayout None, empty_heap))
    as [[st hp] Hrun].
  exists st, hp. split; [exact Hrun|].
  exact (proj1 (promises_resolve_in_creation_order _ _ _ _ _ _ Hrun)).
Defined.

(** X4.  Whatever happened to a stub since its construction, one render
    of its wrapper empties the queue, calls every queued hook (in queue
    order) and leaves no promise pending: no hook is lost, none waits for
    a second render. *)
Theorem render_resolves_every_promise id Component matcher es st hp
    props sc :
  run es (new_ComponentStub id Component matcher, empty_heap) = Ok (st, hp) →
  let sh' := (Wrapper props sc (st, hp)).1 in
  pendingHooks sh'.1 = []
  ∧ (pendingHooks st ≠ [] →
     calls sh'.2 = calls hp ++ promises_of (pendingHooks st))
  ∧ length (cells sh'.2) = length (cells hp)
  ∧ ∀ p : nat, (p < length (cells hp))%nat →
      ∃ v, cells sh'.2 !! p = Some (Some v).
Proof.
  intros Hrun sh'.
  pose proof (consistent_run _ _ _ (consistent_new id Component matcher) Hrun)
    as Hc.
  pose proof (consistent_render props sc _ Hc) as Hc'. fold sh' in Hc'.
  destruct Hc as (Ha & Hb & Hcp & Hd & Hf & He).
  assert (pendingHooks sh'.1 = []
          ∧ (pendingHooks st ≠ [] →
             calls sh'.2 = calls hp ++ promises_of (pendingHooks st))
          ∧ length (cells sh'.2) = length (cells hp)) as (H1 & H2 & H3).
  { assert (match mounted st with
            | Some f => (0 < bumps f)%nat
            | None => True
            end
            ∨ ∃ f, mounted st = Some f ∧ bumps f = 0%nat) as [Hdrain|Hsame].
    { destruct (mounted st) as [f|]; [|by left].
      destruct (bumps f) eqn:Hb'; [right; by eexists|left; lia]. }
    - destruct (Wrapper_drains props sc st hp Hdrain) as [r Hr].
      subst sh'. rewrite Hr. cbn [fst snd pendingHooks].
      split; [done|]. split; [intros _; apply HookExecutor_calls|].
      apply HookExecutor_pending; [|exact Hcp].
      by apply StronglySorted_app_1_r in Hd.
    - destruct Hsame as (f & Hm & Hb0).
      subst sh'. rewrite (Wrapper_rerenders props sc st hp f Hm Hb0).
      rewrite Hm in Ha. destruct Ha as [Ha|Ha]; [|lia].
      rewrite HookExecutor_resolved by (intros h Hh; by eapply He).
      cbn [fst snd pendingHooks cells]. done. }
  split; [exact H1|]. split; [exact H2|]. split; [exact H3|].
  intros p Hp. destruct sh' as [st' hp'].
  destruct Hc' as (_ & Hb' & _). cbn [fst snd] in *.
  rewrite <- H3 in Hp. destruct (Hb' p Hp) as [?|Hin]; [done|].
  rewrite H1 in Hin. by apply elem_of_nil in Hin.
Qed.

Lemma render_resolves_every_promise_witness :
  ∃ st hp,
    run [PushPendingHook (fun _ => JNum 1); MockImplementation "Fake";
         Render JNull JNull; PushPendingHook (fun sc => sc)]
      (new_ComponentStub 1 WorkspaceLayout None, empty_heap) = Ok (st, hp)
    ∧ pendingHooks (Wrapper JNull (JStr "scope") (st, hp)).1.1 = [].
Proof.
  destruct (run_ok
              [PushPendingHook (fun _ => JNum 1); MockImplementation "Fake";
               Render JNull JNull; PushPendingHook (fun sc => sc)]
              (new_ComponentStub 1 WorkspaceLayout None, empty_heap))
    as [[st hp] Hrun].
  exists st, hp. split; [exact Hrun|].
  exact (proj1 (render_resolves_every_promise _ _ _ _ _ _ JNull
                  (JStr "scope") Hrun)).
Defined.

(** X5.  Before the wrapper has rendered for the first time nothing runs
    a hook: over any hook pushes and implementation changes on a stub
    that never rendered, the stub stays unmounted, no hook is called and
    no promise is resolved; each push adds one pending promise and one
    closure to the queue, which wait for the first render. *)
Theorem hooks_wait_for_first_render es sh sh' :
  mounted sh.1 = None →
  forallb (fun e => negb (is_render e)) es = true →
  run es sh = Ok sh' →
  mounted sh'.1 = None
  ∧ calls sh'.2 = calls sh.2
  ∧ settled sh'.2 = settled sh.2
  ∧ cells sh'.2
    = cells sh.2 ++ replicate (length (List.filter is_push es)) None
  ∧ length (pendingHooks sh'.1)
    = (length (pendingHooks sh.1) + length (List.filter is_push es))%nat.
Proof.
  revert sh. induction es as [|e es IH]; intros sh Hm.
  - intros _ [= <-]. cbn. by rewrite app_nil_r, Nat.add_0_r.
  - cbn [forallb]. intros [He Hes]%andb_true_iff. rewrite run_cons.
    intros Hrun. destruct sh as [st hp]. cbn [fst snd] in *.
    destruct e as [pr sc|func|implementation]; [done|..].
    + apply IH in Hrun as (H0 & H1 & H2 & H3 & H4);
        [|cbn [fst mounted]; by rewrite Hm|exact Hes].
      cbn [fst snd calls settled cells pendingHooks List.filter is_push]
        in *.
      rewrite H1, H2, H3, H4, <- app_assoc, length_app. cbn.
      repeat split; [done|lia].
    + apply IH in Hrun as (H0 & H1 & H2 & H3 & H4);
        [|cbn [fst mounted]; by rewrite Hm|exact Hes].
      cbn [fst snd calls settled cells pendingHooks List.filter is_push]
        in *.
      done.
Qed.

Lemma hooks_wait_for_first_render_witness :
  ∃ sh',
    run [PushPendingHook (fun _ => JNum 1); MockImplementation "Fake";
         PushPendingHook (fun _ => JNum 2)]
      (new_ComponentStub 1 WorkspaceLayout None, empty_heap) = Ok sh'
    ∧ calls sh'.2 = [] ∧ settled sh'.2 = [] ∧ cells sh'.2 = [None; None].
Proof.
  destruct (run_ok
              [PushPendingHook (fun _ => JNum 1); MockImplementation "Fake";
               PushPendingHook (fun _ => JNum 2)]
              (new_ComponentStub 1 WorkspaceLayout None, empty_heap))
    as [sh' Hrun].
  exists sh'. split; [exact Hrun|].
  destruct (hooks_wait_for_first_render
              [PushPendingHook (fun _ => JNum 1); MockImplementation "Fake";
               PushPendingHook (fun _ => JNum 2)]
              (new_ComponentStub 1 WorkspaceLayout None, empty_heap) sh'
              eq_refl eq_refl Hrun)
    as (_ & H1 & H2 & H3 & _).
  split; [exact H1|]. split; [exact H2|exact H3].
Defined.

(** What holds of a stub from [mockImplementation(f)] until the next
    change: [f] is recorded, and a mounted wrapper either has memoised [f]
    or has a refresh queued. *)
Lemma mock_kept implementation e sh :
  match e with MockImplementation _ => false | _ => true end = true →
  _implementation sh.1 = Some implementation
  ∧ match mounted sh.1 with
    | Some f => Impl f = MockImpl implementation ∨ (0 < bumps f)%nat
    | None => True
    end →
  ∀ sh', step e sh = Ok sh' →
  _implementation sh'.1 = Some implementation
  ∧ match mounted sh'.1 with
    | Some f => Impl f = MockImpl implementation ∨ (0 < bumps f)%nat
    | None => True
    end.
Proof.
  intros He [Hi Hm] sh'. rewrite step_eq. intros [= <-].
  destruct sh as [st hp]. cbn [fst snd] in *.
  destruct e as [props sc|func|?]; [| |done].
  - unfold Wrapper. cbn [fst _implementation mounted]. split; [done|].
    left. cbn [Impl]. unfold choose_Impl. rewrite Hi.
    destruct (mounted st) as [f|]; [|done]. cbn.
    destruct (bumps f) as [|n] eqn:Hb.
    + rewrite Nat.add_0_r, Nat.eqb_refl. cbn. destruct Hm; [done|lia].
    + assert ((refresher f + S n =? refresher f)%nat = false) as ->
        by (apply Nat.eqb_neq; lia).
      done.
  - cbn [_implementation mounted]. split; [done|].
    destruct (mounted st) as [f|]; cbn; [right; lia|done].
Qed.

(** X6.  After [mockImplementation(f)] (or [callFake(f)]) on a stub in
    any state, every render of the wrapper renders [f] in place of the
    component, however many renders and hook pushes come in between,
    until the implementation is changed again. *)
Theorem mock_renders_until_changed st hp implementation es sh' props sc :
  forallb (fun e => match e with
                    | MockImplementation _ => false
                    | _ => true
                    end) es = true →
  run (MockImplementation implementation :: es) (st, hp) = Ok sh' →
  callFake implementation st = mockImplementation implementation st
  ∧ (Wrapper props sc sh').2.1 = MockImpl implementation.
Proof.
  intros Hes Hrun. split; [reflexivity|].
  assert (_implementation sh'.1 = Some implementation
          ∧ match mounted sh'.1 with
            | Some f => Impl f = MockImpl implementation ∨ (0 < bumps f)%nat
            | None => True
            end) as [Hi Hm].
  { rewrite run_cons in Hrun. cbn [fst snd] in Hrun.
    assert (∀ sh : ComponentStub * heap,
              _implementation sh.1 = Some implementation
              ∧ match mounted sh.1 with
                | Some f => Impl f = MockImpl implementation
                            ∨ (0 < bumps f)%nat
                | None => True
                end →
              run es sh = Ok sh' →
              _implementation sh'.1 = Some implementation
              ∧ match mounted sh'.1 with
                | Some f => Impl f = MockImpl implementation
                            ∨ (0 < bumps f)%nat
                | None => True
                end) as Hind.
    { clear st hp Hrun. induction es as [|e es IH]; intros sh Hsh.
      - by intros [= <-].
      - cbn [forallb] in Hes. apply andb_true_iff in Hes as [He Hes].
        cbn [run]. destruct (step e sh) as [sh1|err] eqn:Hstep; [|done].
        cbn [mbind result_bind]. apply (IH Hes).
        by apply (mock_kept implementation e sh He Hsh). }
    eapply Hind; [|exact Hrun]. cbn [fst snd _implementation mounted].
    split; [done|].
    destruct (mounted st) as [f|]; cbn; [right; lia|done]. }
  destruct sh' as [st' hp']. cbn [fst snd] in *.
  unfold Wrapper. cbn [snd fst]. unfold choose_Impl. rewrite Hi.
  destruct (mounted st') as [f|]; [|done]. cbn.
  destruct (bumps f) as [|n] eqn:Hb.
  - rewrite Nat.add_0_r, Nat.eqb_refl. cbn. destruct Hm; [done|lia].
  - assert ((refresher f + S n =? refresher f)%nat = false) as ->
      by (apply Nat.eqb_neq; lia).
    done.
Qed.

Lemma mock_renders_until_changed_witness :
  ∃ sh',
    run [MockImplementation "Fake"; Render JNull JNull;
         PushPendingHook (fun _ => JNull); Render JNull JNull]
      (new_ComponentStub 0 APIProvider None, empty_heap) = Ok sh'
    ∧ (Wrapper JNull JNull sh').2.1 = MockImpl "Fake".
Proof.
  destruct (run_ok
              [MockImplementation "Fake"; Render JNull JNull;
               PushPendingHook (fun _ => JNull); Render JNull JNull]
              (new_ComponentStub 0 APIProvider None, empty_heap))
    as [sh' Hrun].
  exists sh'. split; [exact Hrun|].
  exact (proj2 (mock_renders_until_changed _ _ "Fake"
                  [Render JNull JNull; PushPendingHook (fun _ => JNull);
                   Render JNull JNull] sh' JNull JNull eq_refl Hrun)).
Defined.

End stub_runs.

Section wrapper_child.
Import Karma.
Implicit Types (st : ComponentStub) (hp : heap) (sc : scope).
Implicit Types (fx : Fixture) (type : elemType).

Lemma Wrapper_child_props st hp (o : gmap string jsval) sc :
  (Wrapper (JObj o) sc (st, hp)).2.2
  = JObj (o ∪ {["_wrapped" := JBool true]}).
Proof. reflexivity. Qed.

(** X7.  The element a wrapper renders for its implementation receives
    every prop the wrapper received and, when those do not name
    [_wrapped] themselves, the marker [_wrapped: true]; the intercepted
    [createElement] then leaves its type alone on every fixture, so a
    stub's own child is never substituted again. *)
Theorem wrapper_child_is_not_intercepted st hp (o : gmap string jsval) sc
    fx type :
  o !! "_wrapped" = None →
  let child_props := (Wrapper (JObj o) sc (st, hp)).2.2 in
  (∀ k v, o !! k = Some v → opt_chain child_props k = v)
  ∧ opt_chain child_props "_wrapped" = JBool true
  ∧ createElement fx type child_props = type.
Proof.
  intros Ho child_props. subst child_props. rewrite Wrapper_child_props.
  assert (opt_chain (JObj (o ∪ {["_wrapped" := JBool true]})) "_wrapped"
          = JBool true) as Hw.
  { cbn. unfold prop. rewrite lookup_union_r by done.
    by rewrite lookup_singleton_eq. }
  split; [|split; [exact Hw|]].
  - intros k v Hk. cbn. unfold prop.
    by rewrite (lookup_union_Some_l _ _ _ _ Hk).
  - unfold createElement. by rewrite Hw.
Qed.

Lemma wrapper_child_is_not_intercepted_witness :
  ∃ fx,
    fixture_with [(Comp "Canvas", None)] = Ok fx
    ∧ createElement fx (Comp "Canvas") (JObj {["zoom" := JNum 2]})
      = WrapperOf 2
    ∧ createElement fx (Comp "Canvas")
        (Wrapper (JObj {["zoom" := JNum 2]}) JNull
           (new_ComponentStub 2 (Comp "Canvas") None, empty_heap)).2.2
      = Comp "Canvas".
Proof.
  destruct (fixture_with_keeps [(Comp "Canvas", None)]) as (fx & Hfx & Hk).
  exists fx. split; [exact Hfx|]. split.
  - rewrite (createElement_keeps _ _ _ _ Hk). reflexivity.
  - apply (wrapper_child_is_not_intercepted
             (new_ComponentStub 2 (Comp "Canvas") None) empty_heap
             {["zoom" := JNum 2]} JNull fx (Comp "Canvas")).
    reflexivity.
Defined.

(** X8.  Props that name [_wrapped] themselves override the marker
    (they are spread after it): the child then receives exactly the props
    the wrapper received, and is looked up as the wrapped element itself
    was. *)
Theorem own_wrapped_prop_overrides_marker st hp (o : gmap string jsval) v sc
    fx type :
  o !! "_wrapped" = Some v →
  (Wrapper (JObj o) sc (st, hp)).2.2 = JObj o
  ∧ createElement fx type (Wrapper (JObj o) sc (st, hp)).2.2
    = createElement fx type (JObj o).
Proof.
  intros Ho. rewrite Wrapper_child_props.
  assert (o ∪ {["_wrapped" := JBool true]} = o) as ->; [|done].
  apply map_eq. intros k. destruct (o !! k) as [x|] eqn:Hk.
  - by rewrite (lookup_union_Some_l _ _ _ _ Hk).
  - rewrite lookup_union_r by done.
    apply lookup_singleton_ne. intros <-. congruence.
Qed.

Lemma own_wrapped_prop_overrides_marker_witness :
  ∃ fx,
    fixture_with [(Comp "Canvas", None)] = Ok fx
    ∧ createElement fx (Comp "Canvas")
        (Wrapper (JObj {["_wrapped" := JBool false]}) JNull
           (new_ComponentStub 2 (Comp "Canvas") None, empty_heap)).2.2
      = WrapperOf 2.
Proof.
  destruct (fixture_with_keeps [(Comp "Canvas", None)]) as (fx & Hfx & Hk).
  exists fx. split; [exact Hfx|].
  destruct (own_wrapped_prop_overrides_marker
              (new_ComponentStub 2 (Comp "Canvas") None) empty_heap
              {["_wrapped" := JBool false]} (JBool false) JNull fx
              (Comp "Canvas") (lookup_singleton_eq _ _)) as [_ ->].
  rewrite (createElement_keeps _ _ _ _ Hk). reflexivity.
Defined.

End wrapper_child.

Section registration.
Import Karma.
Implicit Types (fx : Fixture) (rules : list rule) (type : elemType).

Lemma register_all_snoc rules r fx :
  register_all (rules ++ [r]) fx
  = (stubComponent r.1 r.2 (register_all rules fx)).1.
Proof. unfold register_all. by rewrite foldl_snoc. Qed.

(** Registering stubs touches neither the flags, nor the layout stub, nor
    the stubs that are already in the store. *)
Lemma register_all_frame rules fx :
  _flags (register_all rules fx) = _flags fx
  ∧ _layoutStub (register_all rules fx) = _layoutStub fx
  ∧ ∀ (i : nat) stub,
      stubStore fx !! i = Some stub →
      stubStore (register_all rules fx) !! i = Some stub.
Proof.
  induction rules as [|r rules IH] using rev_ind; [done|].
  rewrite register_all_snoc. destruct IH as (IH1 & IH2 & IH3).
  unfold stubComponent. cbn [fst _flags _layoutStub stubStore].
  split; [done|]. split; [done|]. intros i stub Hi.
  apply lookup_app_l_Some. by apply IH3.
Qed.

(** X9.  [stubComponent(c, m)] on a set-up fixture returns the next stub
    and changes the outcome of an element construction in one case only:
    the type is [c], the props are unmarked, no rule registered earlier
    applies to them, and [m] is absent or accepts them; the new stub's
    wrapper is then used.  Other identities, and identities that already
    have an applicable rule, are resolved as before. *)
Theorem stubComponent_extends_lookup rules c (m : option (jsval → jsval)) :
  ∃ fx,
    fixture_with rules = Ok fx
    ∧ fixture_with (rules ++ [(c, m)]) = Ok (stubComponent c m fx).1
    ∧ (stubComponent c m fx).2 = (2 + length rules)%nat
    ∧ ∀ type props,
        createElement (stubComponent c m fx).1 type props
        = if negb (truthy (opt_chain props "_wrapped"))
             && bool_decide (type = c)
             && bool_decide
                  (first_rule 0 (constructor_rules ++ rules) type props
                   = None)
             && match m with
                | None => true
                | Some matcher => truthy (matcher props)
                end
          then WrapperOf (2 + length rules)
          else createElement fx type props.
Proof.
  destruct (fixture_with_keeps rules) as (fx & Hfx & Hk).
  exists fx. split; [exact Hfx|].
  pose proof (keeps_stubComponent _ _ c m Hk) as Hk'.
  split; [|split].
  - unfold fixture_with in *. rewrite new_Fixture_eq in *.
    cbn [mbind result_bind] in *. injection Hfx as <-.
    by rewrite register_all_snoc.
  - destruct Hk as (_ & Hlen & _). unfold stubComponent. cbn [snd].
    rewrite Hlen, length_app. reflexivity.
  - intros type props.
    rewrite (createElement_keeps _ _ _ _ Hk'),
      (createElement_keeps _ _ _ _ Hk).
    destruct (truthy (opt_chain props "_wrapped")); [done|]. cbn [negb andb].
    unfold spec_lookup. rewrite first_rule_app.
    destruct (first_rule 0 (constructor_rules ++ rules) type props)
      as [k|] eqn:Hfirst.
    + rewrite (bool_decide_eq_false_2 (Some k = None)) by done.
      by rewrite andb_false_r.
    + rewrite (bool_decide_eq_true_2 (None = None)) by done.
      rewrite andb_true_r. cbn [first_rule]. unfold rule_applies.
      cbn [fst snd]. rewrite length_app. cbn [length constructor_rules].
      destruct (decide (type = c)) as [->|Hne].
      * rewrite !bool_decide_eq_true_2 by done. cbn [andb].
        by destruct m as [matcher|]; [destruct (truthy (matcher props))|].
      * rewrite (bool_decide_eq_false_2 (type = c)) by done.
        rewrite (bool_decide_eq_false_2 (c = type)) by done. done.
Qed.

(** X10.  Whatever a test registers, the two stubs of the constructor
    stay in charge of their identities: an unmarked [APIProvider] element
    always gets the first stub's wrapper, which renders the fixture's fake
    provider, and an unmarked [WorkspaceLayout] element always gets the
    wrapper of [_layoutStub], the stub that [fixture.renderHook] pushes
    its hooks to. *)
Theorem constructor_stubs_stay_in_charge rules :
  ∃ fx api layout,
    fixture_with rules = Ok fx
    ∧ stubStore fx !! 0%nat = Some api
    ∧ stubStore fx !! _layoutStub fx = Some layout
    ∧ Component layout = WorkspaceLayout
    ∧ (∀ hp props sc,
         (Wrapper props sc (api, hp)).2.1 = MockImpl "Fixture(APIProvider)")
    ∧ ∀ props,
        truthy (opt_chain props "_wrapped") = false →
        createElement fx APIProvider props = _wrapper api
        ∧ createElement fx WorkspaceLayout props = _wrapper layout.
Proof.
  destruct (fixture_with_keeps rules) as (fx & Hfx & Hk).
  pose proof Hfx as Hfx'. unfold fixture_with in Hfx'.
  rewrite new_Fixture_eq in Hfx'. cbn [mbind result_bind] in Hfx'.
  injection Hfx' as Heq.
  match type of Heq with register_all _ ?f = _ =>
    destruct (register_all_frame rules f) as (_ & Hlay & Hstore) end.
  rewrite Heq in Hlay, Hstore. cbn [_layoutStub stubStore] in Hlay, Hstore.
  eexists fx, _, _. split; [exact Hfx|].
  split; [apply (Hstore 0%nat); reflexivity|].
  split; [rewrite Hlay; apply (Hstore 1%nat); reflexivity|].
  split; [reflexivity|]. split; [reflexivity|].
  intros props Hw. rewrite !(createElement_keeps _ _ _ _ Hk), Hw.
  unfold spec_lookup. rewrite !first_rule_app. done.
Qed.

(** X11.  Flags and stubs do not interfere: registering stubs keeps the
    flags, [setFlags] keeps the stubs and the outcome of every element
    construction, and the two can be called in either order. *)
Theorem flags_and_stubs_independent rules (f : gmap string jsval) fx
    type props :
  _flags (register_all rules fx) = _flags fx
  ∧ register_all rules (setFlags f fx) = setFlags f (register_all rules fx)
  ∧ createElement (setFlags f fx) type props = createElement fx type props.
Proof.
  split; [apply register_all_frame|]. split; [|reflexivity].
  induction rules as [|r rules IH] using rev_ind; [done|].
  rewrite !register_all_snoc, IH. reflexivity.
Qed.

End registration.

Section act_failures.
Import Karma.
Implicit Types (w : scheduler) (cb : callback).

(** X12.  [act] turns failures of the procedure into rejections: when the
    procedure throws [e], or returns a promise that rejects with [e], the
    promise of [act] rejects with [e]; it never fulfils in that case. *)
Theorem act_rejects_when_procedure_fails cb w w1 e :
  cb w = (w1, Raise e)
  ∨ (∃ work, cb w = (w1, Return (Promise work (Rejected e)))) →
  (actPromise cb w).2 = Rejected e.
Proof.
  intros [H|[work H]];
    unfold actPromise, actPromise_with, actPromise_body, act; rewrite H;
    reflexivity.
Qed.

Lemma act_rejects_when_procedure_fails_witness :
  (actPromise (fun w => (w, Raise (JStr "boom"))) (Scheduler [] [])).2
  = Rejected (JStr "boom")
  ∧ (actPromise
       (fun w => (w, Return (Promise (fun w => w) (Rejected (JStr "404")))))
       (Scheduler [] [])).2
    = Rejected (JStr "404").
Proof.
  split.
  - apply (act_rejects_when_procedure_fails
             (fun w => (w, Raise (JStr "boom"))) (Scheduler [] [])
             (Scheduler [] []) (JStr "boom")).
    left. reflexivity.
  - apply (act_rejects_when_procedure_fails
             (fun w => (w, Return (Promise (fun w => w)
                                     (Rejected (JStr "404")))))
             (Scheduler [] []) (Scheduler [] []) (JStr "404")).
    right. eexists. reflexivity.
Defined.

End act_failures.

Section api_provider.
Import Karma.

(** X13.  The font [getAllFonts] answers with keeps every property of the
    default font; [name] and [value] are added as its [family], unless
    the font defines them itself, in which case its own values stay. *)
Theorem getAllFonts_keeps_font (font : gmap string jsval) :
  ∃ answer,
    getAllFonts_fonts font = [answer]
    ∧ (∀ k v, font !! k = Some v → answer !! k = Some v)
    ∧ (font !! "name" = None → answer !! "name" = Some (prop font "family"))
    ∧ (font !! "value" = None →
       answer !! "value" = Some (prop font "family"))
    ∧ ∀ k, k ≠ "name" → k ≠ "value" → answer !! k = font !! k.
Proof.
  eexists. split; [reflexivity|]. split; [|split; [|split]].
  - intros k v Hk. by apply lookup_union_Some_l.
  - intros Hn. rewrite lookup_union_r by done. apply lookup_insert_eq.
  - intros Hv. rewrite lookup_union_r by done.
    rewrite lookup_insert_ne by done. apply lookup_insert_eq.
  - intros k Hn Hv. destruct (font !! k) as [x|] eqn:Hk.
    + by apply lookup_union_Some_l.
    + rewrite lookup_union_r by done.
      by rewrite !lookup_insert_ne, lookup_empty by done.
Qed.

End api_provider.

(* ===================================================================== *)
(** * Further properties of the panel title *)
(* ===================================================================== *)

Section title_header.
Import Panel.

Variable rgba : string → string → string.
Hypothesis rgba_is_a_colour : ∀ colour opacity,
  rgba colour opacity ≠ "transparent".

(** X14.  The header draws its top border exactly when its background is
    transparent, that is when it is neither primary nor secondary; a
    header that is both takes the primary background. *)
Theorem header_border_iff_transparent (isPrimary isSecondary : bool)
    (t : theme) :
  (border_top_width isPrimary isSecondary = JStr "1px"
   ↔ getBackgroundColor rgba isPrimary isSecondary t = "transparent")
  ∧ (getBackgroundColor rgba isPrimary isSecondary t = "transparent"
     ↔ isPrimary = false ∧ isSecondary = false)
  ∧ getBackgroundColor rgba true isSecondary t = rgba (bg_black t) "0.07".
Proof.
  unfold border_top_width, getBackgroundColor.
  split; [|split; [|reflexivity]].
  - destruct isPrimary, isSecondary; cbn; split; try done;
      intros H; by apply rgba_is_a_colour in H.
  - destruct isPrimary, isSecondary; cbn; split; try done;
      try (intros H; by apply rgba_is_a_colour in H);
      intros [H1 H2]; done.
Qed.

End title_header.

Lemma header_border_iff_transparent_witness :
  let rgba := fun colour opacity : string =>
    String.append "rgba(" (String.append colour
      (String.append "," (String.append opacity ")"))) in
  Panel.border_top_width false false = JStr "1px"
  ↔ Panel.getBackgroundColor rgba false false
      {| Panel.bg_black := "#000"; Panel.fg_white := "#fff";
         Panel.fg_gray16 := "#292929" |} = "transparent".
Proof.
  intros rgba.
  apply (header_border_iff_transparent rgba).
  intros colour opacity. discriminate.
Defined.

Section title_clicks.
Import Panel.


End title_clicks.

Section title_expand.
Import Panel.
#[local] Open Scope Z_scope.

Variable Math_round_70_percent : Z → Z.
Hypothesis Math_round_nonneg :
  ∀ x, 0 ≤ x → 0 ≤ Math_round_70_percent x.

(** X16.  After a resize step ([handleHeightChange] followed by
    [handleExpandToHeightChange]) the remembered expand-to height is
    either what it was or the panel's new height, and the latter only
    for a resizeable panel whose new height is at least the collapse
    threshold and at most the maximal height; so a remembered height at
    or above the threshold never drops below it, and a panel that is not
    resizeable never changes it. *)
Theorem expand_to_height_stays_above_threshold
    (PANEL_COLLAPSED_THRESHOLD inspectorContentHeight deltaHeight : Z)
    (p : panel) (expandToHeight : Z) :
  0 ≤ inspectorContentHeight →
  let p' := handleHeightChange Math_round_70_percent inspectorContentHeight
              deltaHeight p in
  let e' := handleExpandToHeightChange PANEL_COLLAPSED_THRESHOLD p'
              expandToHeight in
  (e' = expandToHeight
   ∨ (resizeable p = true ∧ e' = height p'
      ∧ PANEL_COLLAPSED_THRESHOLD ≤ e'
      ∧ 0 ≤ e' ≤ maxHeight Math_round_70_percent inspectorContentHeight))
  ∧ (PANEL_COLLAPSED_THRESHOLD ≤ expandToHeight →
     PANEL_COLLAPSED_THRESHOLD ≤ e')
  ∧ (resizeable p = false → e' = expandToHeight)
  ∧ (resizeable p = true → PANEL_COLLAPSED_THRESHOLD ≤ height p' →
     e' = height p').
Proof.
  intros Hh p' e'.
  pose proof (Math_round_nonneg _ Hh) as HM.
  subst e' p'. unfold handleExpandToHeightChange, handleHeightChange,
    setHeight, maxHeight in *.
  destruct p as [h r]. cbn [height resizeable] in *.
  destruct r; cbn [height resizeable andb].
  - destruct (Z.leb_spec PANEL_COLLAPSED_THRESHOLD
                (Z.max 0 (Z.min (Math_round_70_percent inspectorContentHeight)
                                (h + deltaHeight)))) as [Hle|Hlt].
    + split; [right; repeat split; lia|]. repeat split; try done; lia.
    + split; [by left|]. repeat split; try done; lia.
  - split; [by left|]. repeat split; done.
Qed.

End title_expand.

Lemma expand_to_height_stays_above_threshold_witness :
  let p := {| Panel.height := 250; Panel.resizeable := true |} in
  let p' := Panel.handleHeightChange Panel.exact_round_70_percent 400 100 p in
  Panel.handleExpandToHeightChange 10 p' 250 = 280%Z.
Proof.
  intros p p'.
  assert (∀ x, (0 ≤ x)%Z → (0 ≤ Panel.exact_round_70_percent x)%Z) as Hround.
  { intros x Hx. unfold Panel.exact_round_70_percent.
    apply Z.div_pos; lia. }
  destruct (expand_to_height_stays_above_threshold
              Panel.exact_round_70_percent Hround 10 400 100 p 250
              ltac:(lia)) as (_ & _ & _ & H).
  exact (H eq_refl ltac:(vm_compute; discriminate)).
Defined.
